(** * giveaway-helper-bot: a shallow embedding of [bot.py]

    The bot receives forwarded posts, decides whether a post looks like a
    giveaway (keywords or links), extracts links and a deadline, keeps the
    cards in the in-memory dictionary [GIVEAWAYS], schedules reminders and
    archives cards on request.

    Python strings are lists of code points.  The Unicode tables of the
    interpreter, [dateutil], [uuid4]'s entropy source, the scheduler and the
    clock are parameters of the development (class [Unicode], class [Platform]); the
    regular expressions of [bot.py] are terms of a small regex syntax and run
    on a backtracking matcher with the priorities of Python's [re]. *)

From Stdlib Require Import String Ascii DecimalString List ZArith NArith Lia Bool.
Import ListNotations.

Set Implicit Arguments.

(** ** Strings *)

Definition char := N.
Definition pystr := list char.

(** Decoder for the UTF-8 source literals of [bot.py]. *)
Fixpoint utf8_decode (pending : nat) (acc : N) (bs : list N) : pystr :=
  match bs with
  | [] => []
  | b :: bs' =>
      match pending with
      | O =>
          if (b <? 128)%N then b :: utf8_decode 0 0%N bs'
          else if (b <? 224)%N then utf8_decode 1 (N.land b 31) bs'
          else if (b <? 240)%N then utf8_decode 2 (N.land b 15) bs'
          else utf8_decode 3 (N.land b 7) bs'
      | S n =>
          let acc' := (acc * 64 + N.land b 63)%N in
          match n with
          | O => acc' :: utf8_decode 0 0%N bs'
          | S _ => utf8_decode n acc' bs'
          end
      end
  end.

Definition lit (s : string) : pystr :=
  utf8_decode 0 0%N (map N_of_ascii (list_ascii_of_string s)).

Definition chr (s : string) : char := hd 0%N (lit s).

Arguments lit s%_string.
Arguments chr s%_string.

Definition char_eqb (a b : char) : bool := N.eqb a b.

Fixpoint str_eqb (a b : pystr) : bool :=
  match a, b with
  | [], [] => true
  | x :: a', y :: b' => char_eqb x y && str_eqb a' b'
  | _, _ => false
  end.

(** [bool(x)] for an optional string: [None] and [""] are falsy. *)
Definition truthy (t : option pystr) : bool :=
  match t with
  | Some (_ :: _) => true
  | _ => false
  end.

(** [x or ""] *)
Definition or_empty (t : option pystr) : pystr :=
  match t with
  | Some (c :: s) => c :: s
  | _ => []
  end.

(** ** The interpreter's Unicode tables *)

Class Unicode := {
  isspace : char -> bool;            (* \s, str.isspace *)
  isalnum : char -> bool;            (* str.isalnum; \w adds the underscore *)
  isdecimal : char -> bool;          (* \d *)
  ic_match : char -> char -> bool;   (* re.IGNORECASE: pattern letter, subject char *)
  str_lower : pystr -> pystr;        (* str.lower *)
  str_lower_empty : str_lower [] = []
}.

(** ** Regular expressions *)

Inductive regex :=
| Empty
| Chr (p : char -> bool)
| Cat (r1 r2 : regex)
| Alt (r1 r2 : regex)
| Opt (r : regex)
| Rep (p : char -> bool) (lo : nat) (hi : option nat) (greedy : bool)
| Group (r : regex)
| WordB.

Record re_match := { whole : pystr; group1 : option pystr }.

Notation "a <|> b" := (match a with Some x => Some x | None => b end)
  (at level 60, right associativity, only parsing).

Definition can_take (hi : option nat) : bool :=
  match hi with
  | Some O => false
  | _ => true
  end.

Definition dec_hi (hi : option nat) : option nat :=
  match hi with
  | Some n => Some (pred n)
  | None => None
  end.

Section Matcher.
Context {U : Unicode}.

Definition is_word (c : char) : bool := isalnum c || char_eqb c 95%N.

Definition is_word_opt (o : option char) : bool :=
  match o with
  | Some c => is_word c
  | None => false
  end.

(** [\b] between the character before the position and the one after. *)
Definition at_boundary (prev : option char) (s : pystr) : bool :=
  xorb (is_word_opt prev) (is_word_opt (hd_error s)).

Variable A : Type.

Fixpoint rep_loop (p : char -> bool) (lo : nat) (hi : option nat) (greedy : bool)
    (prev : option char) (s : pystr) (k : option char -> pystr -> option A)
    {struct s} : option A :=
  if greedy then
    match s with
    | c :: s' =>
        if p c && can_take hi
        then rep_loop p (pred lo) (dec_hi hi) greedy (Some c) s' k
        else None
    | [] => None
    end
    <|> (if Nat.eqb lo 0 then k prev s else None)
  else
    (if Nat.eqb lo 0 then k prev s else None)
    <|> match s with
        | c :: s' =>
            if p c && can_take hi
            then rep_loop p (pred lo) (dec_hi hi) greedy (Some c) s' k
            else None
        | [] => None
        end.

(** Backtracking matcher in continuation-passing style: the alternatives
    are tried in the order of [re] (left branch first, greedy repetition
    longest first, lazy repetition shortest first). *)
Fixpoint match_here (r : regex) (prev : option char) (s : pystr) (cap : option pystr)
    (k : option char -> pystr -> option pystr -> option A) {struct r} : option A :=
  match r with
  | Empty => k prev s cap
  | Chr p =>
      match s with
      | c :: s' => if p c then k (Some c) s' cap else None
      | [] => None
      end
  | Cat r1 r2 =>
      match_here r1 prev s cap (fun prev' s' cap' => match_here r2 prev' s' cap' k)
  | Alt r1 r2 =>
      match_here r1 prev s cap k <|> match_here r2 prev s cap k
  | Opt r1 =>
      match_here r1 prev s cap k <|> k prev s cap
  | Rep p lo hi greedy =>
      rep_loop p lo hi greedy prev s (fun prev' s' => k prev' s' cap)
  | Group r1 =>
      match_here r1 prev s cap
        (fun prev' s' _ => k prev' s' (Some (firstn (length s - length s') s)))
  | WordB => if at_boundary prev s then k prev s cap else None
  end.
End Matcher.

Section Search.
Context {U : Unicode}.

Definition match_at (r : regex) (prev : option char) (s : pystr)
    : option (pystr * option pystr) :=
  match_here r prev s None (fun _ s' cap => Some (s', cap)).

Definition consumed (s s' : pystr) : pystr := firstn (length s - length s') s.

(** [re.search]: the first position, from the left, where the pattern matches. *)
Fixpoint search_from (r : regex) (prev : option char) (s : pystr) : option re_match :=
  match match_at r prev s with
  | Some (s', cap) => Some {| whole := consumed s s'; group1 := cap |}
  | None =>
      match s with
      | [] => None
      | c :: s' => search_from r (Some c) s'
      end
  end.

Definition re_search (r : regex) (text : pystr) : option re_match :=
  search_from r None text.

(** [m.group(1)] of [re.findall] with one group: the empty string when the
    group took no part in the match. *)
Definition group_str (cap : option pystr) : pystr :=
  match cap with
  | Some g => g
  | None => []
  end.

(** [re.findall] for a pattern with one group: the matches are searched
    from the left and do not overlap; [skip] counts the characters of the
    last match still to be stepped over.  (A pattern that matches the empty
    string is stepped over by one character.) *)
Fixpoint findall_from (r : regex) (skip : nat) (prev : option char) (s : pystr)
    : list pystr :=
  match skip with
  | S n =>
      match s with
      | [] => []
      | c :: s' => findall_from r n (Some c) s'
      end
  | O =>
      match match_at r prev s with
      | Some (s', cap) =>
          group_str cap ::
          match s with
          | [] => []
          | c :: s'' => findall_from r (pred (length s - length s')) (Some c) s''
          end
      | None =>
          match s with
          | [] => []
          | c :: s'' => findall_from r 0 (Some c) s''
          end
      end
  end.

Definition re_findall (r : regex) (text : pystr) : list pystr :=
  findall_from r 0 None text.
End Search.

(** *** What a match is

    [Matches r prev s cap prev' s' cap']: the pattern [r] can consume a prefix
    of [s] and leave [s'], when [prev] is the character before [s] and [cap]
    the text of group 1 so far.  The matcher returns the first such match in
    the order of its alternatives. *)

Fixpoint last_with (d : option char) (l : pystr) : option char :=
  match l with
  | [] => d
  | c :: l' => last_with (Some c) l'
  end.

Inductive RepRun (p : char -> bool) :
    nat -> option nat -> option char -> pystr -> option char -> pystr -> Prop :=
| RepRun_stop hi prev s : RepRun p 0 hi prev s prev s
| RepRun_more lo hi prev c s prev' s' :
    p c = true -> can_take hi = true ->
    RepRun p (pred lo) (dec_hi hi) (Some c) s prev' s' ->
    RepRun p lo hi prev (c :: s) prev' s'.

Section MatchRelation.
Context {U : Unicode}.

Inductive Matches :
    regex -> option char -> pystr -> option pystr ->
    option char -> pystr -> option pystr -> Prop :=
| M_Empty prev s cap : Matches Empty prev s cap prev s cap
| M_Chr p prev c s cap : p c = true -> Matches (Chr p) prev (c :: s) cap (Some c) s cap
| M_Cat r1 r2 prev s cap prev1 s1 cap1 prev2 s2 cap2 :
    Matches r1 prev s cap prev1 s1 cap1 ->
    Matches r2 prev1 s1 cap1 prev2 s2 cap2 ->
    Matches (Cat r1 r2) prev s cap prev2 s2 cap2
| M_AltL r1 r2 prev s cap prev' s' cap' :
    Matches r1 prev s cap prev' s' cap' -> Matches (Alt r1 r2) prev s cap prev' s' cap'
| M_AltR r1 r2 prev s cap prev' s' cap' :
    Matches r2 prev s cap prev' s' cap' -> Matches (Alt r1 r2) prev s cap prev' s' cap'
| M_OptSome r prev s cap prev' s' cap' :
    Matches r prev s cap prev' s' cap' -> Matches (Opt r) prev s cap prev' s' cap'
| M_OptNone r prev s cap : Matches (Opt r) prev s cap prev s cap
| M_Rep p lo hi greedy prev s cap prev' s' :
    RepRun p lo hi prev s prev' s' -> Matches (Rep p lo hi greedy) prev s cap prev' s' cap
| M_Group r prev s cap prev' s' cap' :
    Matches r prev s cap prev' s' cap' ->
    Matches (Group r) prev s cap prev' s' (Some (firstn (length s - length s') s))
| M_WordB prev s cap :
    at_boundary prev s = true -> Matches WordB prev s cap prev s cap.
End MatchRelation.

(** Truth value of a match object or [None]. *)
Definition found (m : option re_match) : bool :=
  match m with
  | Some _ => true
  | None => false
  end.

(** ** The patterns of [bot.py] *)

Section Patterns.
Context {U : Unicode}.

Definition exactly (c : char) : regex := Chr (char_eqb c).

Fixpoint word (w : pystr) : regex :=
  match w with
  | [] => Empty
  | c :: w' => Cat (exactly c) (word w')
  end.

(** A literal compiled with [re.IGNORECASE]. *)
Fixpoint word_ic (w : pystr) : regex :=
  match w with
  | [] => Empty
  | c :: w' => Cat (Chr (ic_match c)) (word_ic w')
  end.

Definition non_space (c : char) : bool := negb (isspace c).
Definition non_newline (c : char) : bool := negb (char_eqb c 10%N).
Definition colon_or_dot (c : char) : bool := char_eqb c 58%N || char_eqb c 46%N.
Definition colon_or_space (c : char) : bool := char_eqb c 58%N || isspace c.

Definition bounded (w : pystr) : regex := Cat WordB (Cat (word w) WordB).
Definition bounded_opt (w : pystr) (c : char) : regex :=
  Cat WordB (Cat (word w) (Cat (Opt (Group (exactly c))) WordB)).

(** [KEYWORDS] *)
Definition KEYWORDS : list regex :=
  [ bounded (lit "giveaway");
    bounded (lit "розыгрыш");
    bounded_opt (lit "gift") (chr "s");
    bounded_opt (lit "star") (chr "s");
    bounded (lit "приз");
    bounded_opt (lit "портал") (chr "с");
    bounded (lit "portals");
    bounded (lit "тон");
    bounded (lit "ton") ].

(** [URL_REGEX = r"(https?://[^\s]+)"], used with [re.IGNORECASE]. *)
Definition URL_REGEX : regex :=
  Group (Cat (word_ic (lit "http"))
        (Cat (Opt (Chr (ic_match (chr "s"))))
        (Cat (word (lit "://"))
             (Rep non_space 1 None true)))).

Definition hh_mm : regex :=
  Cat (Rep isdecimal 1 (Some 2) true)
      (Cat (Chr colon_or_dot) (Rep isdecimal 2 (Some 2) true)).

(** [DEADLINE_HINTS], used with [re.IGNORECASE]. *)
Definition DEADLINE_HINTS : list regex :=
  [ Cat (word_ic (lit "до")) (Cat (Rep isspace 1 None true) (Group hh_mm));
    Cat (word_ic (lit "deadline"))
        (Cat (Rep colon_or_space 1 None true) (Group (Rep non_newline 1 None true)));
    Cat (word_ic (lit "заканч"))
        (Cat (Rep non_newline 0 None false)
             (Group (Alt (Cat (Rep isdecimal 1 (Some 2) true)
                              (Cat (Rep isspace 1 None true) (Rep is_word 1 None true)))
                         hh_mm))) ].

(** [extract_links] *)
Definition extract_links (text : option pystr) : list pystr :=
  re_findall URL_REGEX (or_empty text).

(** [matches_keywords] *)
Definition matches_keywords (text : option pystr) : bool :=
  let t := if truthy text then str_lower (or_empty text) else [] in
  existsb (fun pat => found (re_search pat t)) KEYWORDS.
End Patterns.

(** ** Keywords and links, stated on the text

    The statements the classifier is compared with: a keyword standing in the
    text as a word of its own, and the links of a text read from the left. *)

Section TextSpec.
Context {U : Unicode}.

(** The words of [KEYWORDS]; [(s)?] gives a word with and without its last
    letter. *)
Definition KEYWORD_WORDS : list pystr :=
  [ lit "giveaway"; lit "розыгрыш"; lit "gift"; lit "gifts"; lit "star"; lit "stars";
    lit "приз"; lit "портал"; lit "порталс"; lit "portals"; lit "тон"; lit "ton" ].

(** [w] stands at the head of [s], which follows the character [prev],
    with a word boundary before and behind it. *)
Definition word_here (w : pystr) (prev : option char) (s : pystr) : Prop :=
  exists post,
    s = w ++ post /\ at_boundary prev s = true
    /\ at_boundary (last_with prev w) post = true.

(** [w] occurs in [t] with a word boundary on both sides. *)
Definition word_at (w t : pystr) : Prop :=
  exists pre post,
    t = pre ++ w ++ post
    /\ at_boundary (last_with None pre) (w ++ post) = true
    /\ at_boundary (last_with (last_with None pre) w) post = true.

Definition has_keyword (t : pystr) : Prop :=
  exists w, In w KEYWORD_WORDS /\ word_at w t.

(** [s] is [w] up to the case of its letters. *)
Definition ic_equal (w s : pystr) : Prop :=
  Forall2 (fun p c => ic_match p c = true) w s.

(** [u] is a link: [http] or [https] in any case, [://], and one or more
    characters that are not white space. *)
Definition UrlMatch (u : pystr) : Prop :=
  exists scheme body,
    u = scheme ++ lit "://" ++ body
    /\ (ic_equal (lit "http") scheme \/ ic_equal (lit "https") scheme)
    /\ body <> []
    /\ Forall (fun c => isspace c = false) body.

Definition starts_with_link (s : pystr) : Prop :=
  exists u rest, s = u ++ rest /\ UrlMatch u.

Definition contains_link (t : pystr) : Prop :=
  exists pre s, t = pre ++ s /\ starts_with_link s.

(** The text ends or goes on with white space. *)
Definition token_end (rest : pystr) : Prop :=
  match rest with
  | [] => True
  | c :: _ => isspace c = true
  end.

(** The links of a text, from the left: each link starts at the first
    position where one can start, runs to the next white space or to the
    end, and the scan goes on behind it. *)
Inductive url_scan : pystr -> list pystr -> Prop :=
| scan_done t : ~ contains_link t -> url_scan t []
| scan_link gap u rest l :
    (forall g1 g2, gap = g1 ++ g2 -> g2 <> [] -> ~ starts_with_link (g2 ++ u ++ rest)) ->
    UrlMatch u ->
    token_end rest ->
    url_scan rest l ->
    url_scan (gap ++ u ++ rest) (u :: l).
End TextSpec.

(** ** Dates, exceptions and the platform *)

(** A [datetime]: [wall] counts the microseconds since 0001-01-01 00:00 on
    the datetime's own clock; [tzinfo] is the UTC offset in microseconds of
    an aware datetime and [None] for a naive one. *)
Record datetime := { wall : Z; tzinfo : option Z }.

Inductive exn := ParserError | ValueError | TypeError | OverflowError.

Inductive outcome (A : Type) :=
| Ok (a : A)
| Raise (e : exn).

Arguments Ok {A} a.
Arguments Raise {A} e.

(** What the bot takes from its libraries and from the operating system. *)
Class Platform := {
  (* dateparser.parse(s, dayfirst=True, fuzzy=True) run when the clock shows
     the given instant *)
  dateutil_parse : Z -> pystr -> outcome (option datetime);
  (* the n-th 16 bytes of os.urandom, read as a big-endian integer *)
  urandom16 : nat -> N;
  (* UTC offset of the system time zone, in microseconds *)
  local_utcoffset : Z;
  (* int(s) *)
  py_int : pystr -> outcome Z;
  (* str(dt) *)
  str_datetime : datetime -> pystr;
  (* scheduler.add_job(job, "date", run_date=d) on a running
     BackgroundScheduler(timezone=tz) when the clock shows the given instant:
     the scheduler reads a naive run date in its own time zone tz, and raises
     when it cannot take the date *)
  scheduler_add_job : pystr -> Z -> datetime -> outcome unit
}.

Definition MAXWALL : Z := 315537897600000000.
Definition US_PER_MINUTE : Z := 60000000.
Definition US_PER_DAY : Z := 86400000000.

(** [timedelta(minutes=m)], in microseconds. *)
Definition timedelta_minutes (m : Z) : outcome Z :=
  let us := (m * US_PER_MINUTE)%Z in
  if (Z.abs (us / US_PER_DAY) <=? 999999999)%Z then Ok us else Raise OverflowError.

(** [dt + delta] *)
Definition datetime_add (dt : datetime) (delta : Z) : outcome datetime :=
  let w := (wall dt + delta)%Z in
  if (0 <=? w)%Z && (w <? MAXWALL)%Z
  then Ok {| wall := w; tzinfo := tzinfo dt |}
  else Raise OverflowError.

(** [a > b]: naive datetimes compare by their fields, aware ones by their
    instants, and mixing the two is a [TypeError]. *)
Definition datetime_gt (a b : datetime) : outcome bool :=
  match tzinfo a, tzinfo b with
  | None, None => Ok (wall b <? wall a)%Z
  | Some oa, Some ob => Ok (wall b - ob <? wall a - oa)%Z
  | _, _ => Raise TypeError
  end.

(** ** The state of the process *)

(** A card of [GIVEAWAYS]: the dictionary with the five keys written by
    [handle_forward]. *)
Record giveaway := {
  from_chat : option pystr;
  text : pystr;
  links : list pystr;
  deadline : option datetime;
  archived : bool
}.

Inductive button :=
| UrlButton (label url : pystr)
| CallbackButton (label callback_data : pystr).

Definition markup := list (list button).

(** What the bot hands to the Telegram transport. *)
Inductive output :=
| ReplyText (body : pystr) (reply_markup : option markup)
| Answer
| EditMessageText (body : pystr)
| SendMessage (chat_id : Z) (body : pystr) (reply_markup : markup).

(** A job of the scheduler: the closure [job] of [schedule_reminder] with
    the variables it captured, and its run date. *)
Record date_job := { job_chat_id : Z; job_gid : pystr; run_date : datetime }.

(** The calls [extract_deadline] makes to [dateutil] and, for a hint
    pattern, to [re.search], with the string passed. *)
Inductive attempt :=
| ParseAttempt (s : pystr)
| SearchAttempt (s : pystr).

(** The clock stands still while a handler runs; between two handlers it may
    show any time. *)
Record World := {
  GIVEAWAYS : list (pystr * giveaway);   (* the dict, in insertion order *)
  jobs : list date_job;                  (* jobs [scheduler] has taken *)
  outbox : list output;                  (* everything sent so far, oldest first *)
  clock : Z;                             (* UTC microseconds since 0001-01-01 *)
  drawn : nat;                           (* calls of uuid4() so far *)
  attempts : list attempt                (* calls made by extract_deadline *)
}.

(** *** Python dictionaries as insertion-ordered association lists *)

Fixpoint dict_get {V} (k : pystr) (d : list (pystr * V)) : option V :=
  match d with
  | [] => None
  | (k', v) :: d' => if str_eqb k k' then Some v else dict_get k d'
  end.

Definition dict_mem {V} (k : pystr) (d : list (pystr * V)) : bool :=
  match dict_get k d with
  | Some _ => true
  | None => false
  end.

(** [d[k] = v]: an existing key keeps its place, a new key goes last. *)
Fixpoint dict_set {V} (k : pystr) (v : V) (d : list (pystr * V)) : list (pystr * V) :=
  match d with
  | [] => [(k, v)]
  | (k', v') :: d' =>
      if str_eqb k k' then (k', v) :: d' else (k', v') :: dict_set k v d'
  end.

(** [d[k][field] = x] on the inner dictionary. *)
Fixpoint dict_update {V} (k : pystr) (f : V -> V) (d : list (pystr * V)) : list (pystr * V) :=
  match d with
  | [] => []
  | (k', v') :: d' =>
      if str_eqb k k' then (k', f v') :: d' else (k', v') :: dict_update k f d'
  end.

(** ** The monad of the handlers: state and exceptions *)

Definition Bot (A : Type) : Type := World -> outcome A * World.

Definition ret {A} (a : A) : Bot A := fun w => (Ok a, w).

Definition bind {A B} (m : Bot A) (f : A -> Bot B) : Bot B :=
  fun w =>
    match m w with
    | (Ok a, w') => f a w'
    | (Raise e, w') => (Raise e, w')
    end.

Definition raise {A} (e : exn) : Bot A := fun w => (Raise e, w).

(** [try: m / except Exception: h] *)
Definition try_except {A} (m : Bot A) (h : Bot A) : Bot A :=
  fun w =>
    match m w with
    | (Ok a, w') => (Ok a, w')
    | (Raise _, w') => h w'
    end.

Definition lift {A} (o : outcome A) : Bot A := fun w => (o, w).

Definition gets {A} (f : World -> A) : Bot A := fun w => (Ok (f w), w).

Definition modify (f : World -> World) : Bot unit := fun w => (Ok tt, f w).

Declare Scope bot_scope.
Delimit Scope bot_scope with bot.
Bind Scope bot_scope with Bot.

Notation "x <- m ;; k" := (bind m (fun x => k))
  (at level 61, m at next level, right associativity) : bot_scope.
Notation "m ;; k" := (bind m (fun _ => k))
  (at level 61, right associativity) : bot_scope.

Local Open Scope bot_scope.

Definition set_GIVEAWAYS (d : list (pystr * giveaway)) (w : World) : World :=
  {| GIVEAWAYS := d; jobs := jobs w; outbox := outbox w; clock := clock w;
     drawn := drawn w; attempts := attempts w |}.

Definition add_job (j : date_job) (w : World) : World :=
  {| GIVEAWAYS := GIVEAWAYS w; jobs := jobs w ++ [j]; outbox := outbox w;
     clock := clock w; drawn := drawn w; attempts := attempts w |}.

Definition emit (o : output) (w : World) : World :=
  {| GIVEAWAYS := GIVEAWAYS w; jobs := jobs w; outbox := outbox w ++ [o];
     clock := clock w; drawn := drawn w; attempts := attempts w |}.

Definition log_attempt (a : attempt) (w : World) : World :=
  {| GIVEAWAYS := GIVEAWAYS w; jobs := jobs w; outbox := outbox w;
     clock := clock w; drawn := drawn w; attempts := attempts w ++ [a] |}.

Definition add_attempts (l : list attempt) (w : World) : World :=
  {| GIVEAWAYS := GIVEAWAYS w; jobs := jobs w; outbox := outbox w;
     clock := clock w; drawn := drawn w; attempts := attempts w ++ l |}.

Definition count_draw (w : World) : World :=
  {| GIVEAWAYS := GIVEAWAYS w; jobs := jobs w; outbox := outbox w;
     clock := clock w; drawn := S (drawn w); attempts := attempts w |}.

Definition send (o : output) : Bot unit := modify (emit o).

(** ** Identifiers: [str(uuid4())] *)

Definition hex_digit (d : N) : char :=
  if (d <? 10)%N then (48 + d)%N else (87 + d)%N.

(** ['%032x' % n], most significant digit first. *)
Fixpoint hex_digits (len : nat) (n : N) : pystr :=
  match len with
  | O => []
  | S len' => hex_digits len' (n / 16)%N ++ [hex_digit (n mod 16)%N]
  end.

(** [UUID(bytes=..., version=4).int]: the variant and version bits are forced. *)
Definition uuid4_int (r : N) : N :=
  let i := (r mod 2 ^ 128)%N in
  let i := N.lor (N.ldiff i (N.shiftl 0xc000 48)) (N.shiftl 0x8000 48) in
  N.lor (N.ldiff i (N.shiftl 0xf000 64)) (N.shiftl 4 76).

Definition str_uuid (i : N) : pystr :=
  let h := hex_digits 32 i in
  firstn 8 h ++ [45%N] ++ firstn 4 (skipn 8 h) ++ [45%N] ++ firstn 4 (skipn 12 h)
  ++ [45%N] ++ firstn 4 (skipn 16 h) ++ [45%N] ++ skipn 20 h.

(** ** String helpers *)

Fixpoint startswith (prefix s : pystr) : bool :=
  match prefix, s with
  | [], _ => true
  | p :: prefix', c :: s' => char_eqb p c && startswith prefix' s'
  | _ :: _, [] => false
  end.

(** [s.split(sep)] for a one-character separator. *)
Fixpoint split (sep : char) (s : pystr) : list pystr :=
  match s with
  | [] => [[]]
  | c :: s' =>
      if char_eqb c sep then [] :: split sep s'
      else match split sep s' with
           | piece :: pieces => (c :: piece) :: pieces
           | [] => [[c]]
           end
  end.

(** [sep.join(pieces)] *)
Fixpoint join (sep : pystr) (pieces : list pystr) : pystr :=
  match pieces with
  | [] => []
  | [piece] => piece
  | piece :: pieces' => piece ++ sep ++ join sep pieces'
  end.

(** [str(n)] for a length. *)
Definition str_nat (n : nat) : pystr :=
  map N_of_ascii (list_ascii_of_string (NilEmpty.string_of_uint (Nat.to_uint n))).

Definition newline : pystr := [10%N].
Definition colon : char := 58%N.

Module Msg.
Record chat := { title : option pystr }.
Record t := { text : option pystr; caption : option pystr; forward_from_chat : option chat }.
End Msg.

Record callback_query := { data : pystr; message_chat_id : Z }.

(** ** The bot *)

(** The zone of [scheduler = BackgroundScheduler(timezone="Europe/Kyiv")]. *)
Definition SCHEDULER_TIMEZONE : pystr := lit "Europe/Kyiv".

Section Bot.
Context {U : Unicode} {P : Platform}.

Definition datetime_now (tz : option Z) : Bot datetime :=
  gets (fun w =>
    match tz with
    | None => {| wall := clock w + local_utcoffset; tzinfo := None |}
    | Some off => {| wall := clock w + off; tzinfo := Some off |}
    end%Z).

(** [dateparser.parse(s, dayfirst=True, fuzzy=True)]; a [None] argument is
    refused with a [TypeError]. *)
Definition dateparser_parse (s : option pystr) : Bot (option datetime) :=
  match s with
  | Some s => fun w => (dateutil_parse (clock w) s, log_attempt (ParseAttempt s) w)
  | None => raise TypeError
  end.

Definition re_search_hint (pat : regex) (s : pystr) : Bot (option re_match) :=
  fun w => (Ok (re_search pat s), log_attempt (SearchAttempt s) w).

Definition uuid4 : Bot N :=
  fun w => (Ok (uuid4_int (urandom16 (drawn w))), count_draw w).

(** The loop over [DEADLINE_HINTS] of [extract_deadline]. *)
Fixpoint try_hints (hints : list regex) (text : pystr) : Bot (option datetime) :=
  match hints with
  | [] => ret None
  | pat :: hints' =>
      m <- re_search_hint pat text ;;
      match m with
      | Some mo => try_except (dateparser_parse (group1 mo)) (try_hints hints' text)
      | None => try_hints hints' text
      end
  end.

(** [extract_deadline] *)
Definition extract_deadline (text : option pystr) : Bot (option datetime) :=
  if negb (truthy text) then ret None
  else
    let text := or_empty text in
    early <- try_except
               (dt <- dateparser_parse (Some text) ;;
                match dt with
                | Some d =>
                    now <- datetime_now (tzinfo d) ;;
                    later <- lift (datetime_gt d now) ;;
                    if later then ret (Some d) else ret None
                | None => ret None
                end)
               (ret None) ;;
    match early with
    | Some d => ret (Some d)
    | None => try_hints DEADLINE_HINTS text
    end.

(** [build_buttons] *)
Definition build_buttons (links : list pystr) (gid : pystr) (deadline : option datetime)
    : markup :=
  map (fun url => [UrlButton (lit "Открыть ссылку") url]) (firstn 4 links)
  ++ [ [ CallbackButton (lit "Напомнить за 10 мин") (lit "remind:" ++ gid ++ lit ":10");
         CallbackButton (lit "за 1 час") (lit "remind:" ++ gid ++ lit ":60") ];
       [ CallbackButton (lit "В архив") (lit "archive:" ++ gid) ] ].

(** [start] *)
Definition start : Bot unit :=
  send (ReplyText
    (lit "Привет! Пересылай мне посты/сообщения о розыгрышах (Portals, Stars и т.п.). "
     ++ lit "Я вытащу ссылки и предложу кнопки для быстрого входа + смогу напомнить перед дедлайном.")
    None).

(** The test of [handle_forward]: a keyword or a link. *)
Definition is_giveaway (text : pystr) : bool :=
  let links := extract_links (Some text) in
  matches_keywords (Some text) || negb (Nat.eqb (length links) 0).

(** [x or default] for an optional string. *)
Definition or_else (x : option pystr) (default : pystr) : pystr :=
  if truthy x then or_empty x else default.

(** [handle_forward] *)
Definition handle_forward (msg : Msg.t) : Bot unit :=
  let text := or_else (Msg.text msg) (or_else (Msg.caption msg) []) in
  let links := extract_links (Some text) in
  if negb (is_giveaway text) then
    send (ReplyText
      (lit "Не похоже на розыгрыш. Если всё же он — пришли сообщение с ссылкой/условиями.")
      None)
  else
    u <- uuid4 ;;
    let gid := firstn 8 (str_uuid u) in
    deadline <- extract_deadline (Some text) ;;
    let card :=
      {| from_chat := match Msg.forward_from_chat msg with
                      | Some c => Msg.title c
                      | None => None
                      end;
         text := text;
         links := links;
         deadline := deadline;
         archived := false |} in
    modify (fun w => set_GIVEAWAYS (dict_set gid card (GIVEAWAYS w)) w) ;;
    let title :=
      lit "🎁 Розыгрыш (" ++ or_else (from_chat card) (lit "переслано") ++ lit ")"
      ++ newline ++ lit "ID: " ++ gid in
    let title :=
      match deadline with
      | Some d => title ++ newline ++ lit "Дедлайн: " ++ str_datetime d
      | None => title
      end in
    send (ReplyText title (Some (build_buttons links gid deadline))).

(** The closure [job] of [schedule_reminder]; it runs when the job fires. *)
Definition job (chat_id : Z) (gid : pystr) : Bot unit :=
  g <- gets (fun w => dict_get gid (GIVEAWAYS w)) ;;
  match g with
  | None => ret tt
  | Some g =>
      if archived g then ret tt
      else
        let text := lit "⏰ Напоминание по розыгрышу " ++ gid in
        let buttons := build_buttons (links g) gid (deadline g) in
        send (SendMessage chat_id text buttons)
  end.

(** [scheduler.add_job(job, "date", run_date=when)]: the scheduler of the
    module, made for the zone [SCHEDULER_TIMEZONE], takes the job or
    raises. *)
Definition scheduler_add (j : date_job) : Bot unit :=
  now <- gets clock ;;
  lift (scheduler_add_job SCHEDULER_TIMEZONE now (run_date j)) ;;
  modify (add_job j).

(** [schedule_reminder] *)
Definition schedule_reminder (chat_id : Z) (gid : pystr) (minutes : Z) : Bot unit :=
  now <- datetime_now None ;;
  delta <- lift (timedelta_minutes minutes) ;;
  when <- lift (datetime_add now delta) ;;
  scheduler_add {| job_chat_id := chat_id; job_gid := gid; run_date := when |}.

(** The scheduler runs a job that is due. *)
Definition fire (j : date_job) : Bot unit := job (job_chat_id j) (job_gid j).

Definition set_archived (g : giveaway) : giveaway :=
  {| from_chat := from_chat g; text := text g; links := links g;
     deadline := deadline g; archived := true |}.

(** [on_button] *)
Definition on_button (q : callback_query) : Bot unit :=
  send Answer ;;
  if startswith (lit "remind:") (data q) then
    match split colon (data q) with
    | [_; gid; mins] =>
        minutes <- lift (py_int mins) ;;
        schedule_reminder (message_chat_id q) gid minutes ;;
        send (EditMessageText
          (lit "Напоминание поставлено через " ++ mins ++ lit " мин. (ID: " ++ gid ++ lit ")"))
    | _ => raise ValueError
    end
  else if startswith (lit "archive:") (data q) then
    match split colon (data q) with
    | [_; gid] =>
        present <- gets (fun w => dict_mem gid (GIVEAWAYS w)) ;;
        (if present
         then modify (fun w => set_GIVEAWAYS (dict_update gid set_archived (GIVEAWAYS w)) w)
         else ret tt) ;;
        send (EditMessageText (lit "Розыгрыш " ++ gid ++ lit " отправлен в архив."))
    | _ => raise ValueError
    end
  else ret tt.

Definition str_deadline (d : option datetime) : pystr :=
  match d with
  | Some dt => str_datetime dt
  | None => lit "None"
  end.

Definition list_line (entry : pystr * giveaway) : pystr :=
  let (gid, g) := entry in
  lit "• " ++ gid ++ lit ": " ++ or_else (from_chat g) (lit "unknown")
  ++ lit " | links: " ++ str_nat (length (links g))
  ++ lit " | deadline: " ++ str_deadline (deadline g).

(** The comprehension of [list_cmd]: the cards that are not archived. *)
Definition active_cards (d : list (pystr * giveaway)) : list (pystr * giveaway) :=
  filter (fun entry => negb (archived (snd entry))) d.

(** [list_cmd] *)
Definition list_cmd : Bot unit :=
  active <- gets (fun w => active_cards (GIVEAWAYS w)) ;;
  match active with
  | [] => send (ReplyText (lit "Сейчас нет активных карточек.") None)
  | _ :: _ =>
      let lines := map list_line (firstn 20 active) in
      send (ReplyText (lit "Активные:" ++ newline ++ join newline lines) None)
  end.
End Bot.

(** ** Observations used in the statements *)

(** What a handler sent: the part of the outbox that it added. *)
Definition sent_by {A} (h : Bot A) (w : World) : list output :=
  skipn (length (outbox w)) (outbox (snd (h w))).

(** The instant of a datetime on the UTC clock; a naive datetime is read in
    the system time zone. *)
Definition instant {P : Platform} (d : datetime) : Z :=
  match tzinfo d with
  | Some off => wall d - off
  | None => wall d - local_utcoffset
  end.

(** What step 1 of [extract_deadline] is meant to keep: the general parse
    of the whole text, if its instant is after the clock. *)
Definition general_parse {P : Platform} (text : pystr) (w : World) : option datetime :=
  match dateutil_parse (clock w) text with
  | Ok (Some d) => if (clock w <? instant d)%Z then Some d else None
  | _ => None
  end.

(** The text [handle_forward] works on: [msg.text or msg.caption or ""]. *)
Definition message_text (msg : Msg.t) : pystr :=
  or_else (Msg.text msg) (or_else (Msg.caption msg) []).

(** The identifier made from the [n]-th call of [uuid4]: [str(uuid4())[:8]]. *)
Definition gid_at {P : Platform} (n : nat) : pystr :=
  firstn 8 (str_uuid (uuid4_int (urandom16 n))).

(** The identifier the next call of [uuid4] gives. *)
Definition next_gid {P : Platform} (w : World) : pystr := gid_at (drawn w).

(** The card [handle_forward] stores for a message. *)
Definition card_of {U : Unicode} (msg : Msg.t) (deadline : option datetime) : giveaway :=
  {| from_chat := match Msg.forward_from_chat msg with
                  | Some c => Msg.title c
                  | None => None
                  end;
     text := message_text msg;
     links := extract_links (Some (message_text msg));
     deadline := deadline;
     archived := false |}.

(** The run date [schedule_reminder] computes. *)
Definition when_of {P : Platform} (w : World) (minutes : Z) : outcome datetime :=
  match timedelta_minutes minutes with
  | Ok delta => datetime_add {| wall := clock w + local_utcoffset; tzinfo := None |} delta
  | Raise e => Raise e
  end.

(** The run date of a reminder as the scheduler takes it: the date
    [schedule_reminder] computes, handed to [scheduler.add_job]; or what was
    raised on the way. *)
Definition scheduled {P : Platform} (w : World) (minutes : Z) : outcome datetime :=
  match when_of w minutes with
  | Ok d =>
      match scheduler_add_job SCHEDULER_TIMEZONE (clock w) d with
      | Ok _ => Ok d
      | Raise e => Raise e
      end
  | Raise e => Raise e
  end.

(** No colon in the string. *)
Definition colon_free (s : pystr) : bool :=
  forallb (fun c => negb (char_eqb c colon)) s.

Definition archive_token (gid : pystr) : pystr := lit "archive:" ++ gid.

Definition remind_token (gid mins : pystr) : pystr :=
  lit "remind:" ++ gid ++ [colon] ++ mins.

Definition archive_ack (gid : pystr) : output :=
  EditMessageText (lit "Розыгрыш " ++ gid ++ lit " отправлен в архив.").

Definition remind_ack (gid mins : pystr) : output :=
  EditMessageText
    (lit "Напоминание поставлено через " ++ mins ++ lit " мин. (ID: " ++ gid ++ lit ")").

(** A handler never takes a card out of the archive. *)
Definition never_reverts (h : Bot unit) : Prop :=
  forall w k g,
    dict_get k (GIVEAWAYS w) = Some g -> archived g = true ->
    dict_get k (GIVEAWAYS (snd (h w))) = Some g.

(** What the transport can see of a run: the result and what was sent. *)
Definition observed (h : Bot unit) (w : World) : outcome unit * list output :=
  (fst (h w), sent_by h w).

(** The card under [gid] is missing or archived. *)
Definition gone (gid : pystr) (w : World) : Prop :=
  match dict_get gid (GIVEAWAYS w) with
  | Some g => archived g = true
  | None => True
  end.

(** ** The bot at work *)

Definition set_clock (t : Z) (w : World) : World :=
  {| GIVEAWAYS := GIVEAWAYS w; jobs := jobs w; outbox := outbox w; clock := t;
     drawn := drawn w; attempts := attempts w |}.

(** One step of the running bot: the dispatcher set up by [main] hands an
    update to one of the four handlers, the scheduler runs a job that it
    has taken, or time passes.  When a job is due is the scheduler's matter
    (it reads the naive run date in [SCHEDULER_TIMEZONE], not in the system
    zone): here a job may run at any time and any number of times.  A
    handler that raises keeps what it did before. *)
Inductive step {U : Unicode} {P : Platform} : World -> World -> Prop :=
| step_start w : step w (snd (start w))
| step_list w : step w (snd (list_cmd w))
| step_forward msg w : step w (snd (handle_forward msg w))
| step_button q w : step w (snd (on_button q w))
| step_fire j w : In j (jobs w) -> step w (snd (fire j w))
| step_tick t w : (clock w <= t)%Z -> step w (set_clock t w).

Inductive run {U : Unicode} {P : Platform} : World -> World -> Prop :=
| run_done w : run w w
| run_more w1 w2 w3 : run w1 w2 -> step w2 w3 -> run w1 w3.

(** A digit of [%x]. *)
Definition is_hex (c : char) : bool :=
  ((48 <=? c) && (c <=? 57) || (97 <=? c) && (c <=? 102))%N.

(** A card as [handle_forward] makes them: under eight hexadecimal digits,
    with the links of its text, and with a text that passes the test. *)
Definition card_ok {U : Unicode} (entry : pystr * giveaway) : Prop :=
  length (fst entry) = 8%nat
  /\ forallb is_hex (fst entry) = true
  /\ links (snd entry) = extract_links (Some (text (snd entry)))
  /\ (has_keyword (str_lower (text (snd entry))) \/ contains_link (text (snd entry))).

Definition registry_ok {U : Unicode} (w : World) : Prop :=
  NoDup (map fst (GIVEAWAYS w)) /\ Forall card_ok (GIVEAWAYS w).

(** [a] is the beginning of [b]. *)
Definition begins {A} (a b : list A) : Prop := exists more, b = a ++ more.

(** The links and the callback tokens of a keyboard, row by row. *)
Definition button_url (b : button) : list pystr :=
  match b with
  | UrlButton _ url => [url]
  | CallbackButton _ _ => []
  end.

Definition button_token (b : button) : list pystr :=
  match b with
  | UrlButton _ _ => []
  | CallbackButton _ token => [token]
  end.

Definition button_urls (m : markup) : list pystr := flat_map (flat_map button_url) m.
Definition button_tokens (m : markup) : list pystr := flat_map (flat_map button_token) m.

(** How often the colon occurs. *)
Definition colons (s : pystr) : nat := count_occ N.eq_dec s colon.

Definition is_parse (a : attempt) : bool :=
  match a with
  | ParseAttempt _ => true
  | SearchAttempt _ => false
  end.

(** The attempts a handler added to the log. *)
Definition tried_by {A} (h : Bot A) (w : World) : list attempt :=
  skipn (length (attempts w)) (attempts (snd (h w))).

(** [s] occurs in [t]. *)
Definition substring (s t : pystr) : Prop := exists pre post, t = pre ++ s ++ post.

(** ** A concrete table for Latin and Cyrillic text

    The tables of CPython restricted to Basic Latin, the Russian and
    Ukrainian alphabets and the white space of [str.isspace]; every other
    code point is neither a letter nor a digit and has no case.  It is used
    to run the bot on concrete messages. *)

Module Basic.
Local Open Scope N_scope.

Definition in_range (lo hi c : N) : bool := (lo <=? c) && (c <=? hi).

Definition isspace (c : char) : bool :=
  in_range 9 13 c || in_range 28 32 c || char_eqb c 133 || char_eqb c 160
  || char_eqb c 5760 || in_range 8192 8202 c || char_eqb c 8232
  || char_eqb c 8233 || char_eqb c 8239 || char_eqb c 8287 || char_eqb c 12288.

Definition isdecimal (c : char) : bool := in_range 48 57 c.

Definition isupper (c : char) : bool :=
  in_range 65 90 c || in_range 1024 1071 c || char_eqb c 1168.

Definition islower (c : char) : bool :=
  in_range 97 122 c || in_range 1072 1119 c || char_eqb c 1169.

Definition isalnum (c : char) : bool := isdecimal c || isupper c || islower c.

Definition tolower (c : char) : char :=
  if in_range 65 90 c then c + 32
  else if in_range 1040 1071 c then c + 32
  else if in_range 1024 1039 c then c + 80
  else if char_eqb c 1168 then 1169
  else c.

(** [re.IGNORECASE] compares lower-cased code points; the letter [s] also
    matches U+017F and [k] U+212A. *)
Definition ic_match (p c : char) : bool :=
  char_eqb (tolower c) (tolower p)
  || (char_eqb p 115 && char_eqb c 383)
  || (char_eqb p 107 && char_eqb c 8490).

Definition str_lower (s : pystr) : pystr := map tolower s.

Definition table : Unicode :=
  Build_Unicode isspace isalnum isdecimal ic_match str_lower eq_refl.
End Basic.

(** ** A concrete platform

    A small [dateutil] that understands one kind of text, a clock time
    [HH:MM] somewhere in it: like the fuzzy parser it skips the other words
    and fills the date from the default, today at midnight.  [int] reads
    plain decimal digits, and the entropy source is given by the caller. *)

Module Demo.
Local Open Scope Z_scope.

Definition digit (c : char) : option Z :=
  if Basic.isdecimal c then Some (Z.of_N c - 48) else None.

(** A clock time at the head of the text. *)
Definition clock_time_here (s : pystr) : option (Z * Z) :=
  match s with
  | h1 :: h2 :: c :: m1 :: m2 :: _ =>
      match digit h1, digit h2, digit m1, digit m2 with
      | Some a, Some b, Some x, Some y =>
          if char_eqb c colon then Some (10 * a + b, 10 * x + y) else None
      | _, _, _, _ => None
      end
  | _ => None
  end.

Fixpoint find_clock_time (s : pystr) : option (Z * Z) :=
  match clock_time_here s with
  | Some hm => Some hm
  | None =>
      match s with
      | [] => None
      | _ :: s' => find_clock_time s'
      end
  end.

Definition midnight (local_wall : Z) : Z := local_wall - local_wall mod US_PER_DAY.

Definition parse (utcoffset : Z) (now : Z) (s : pystr) : outcome (option datetime) :=
  match find_clock_time s with
  | Some (h, m) =>
      if (h <=? 23) && (m <=? 59)
      then Ok (Some {| wall := midnight (now + utcoffset) + h * 60 * US_PER_MINUTE
                               + m * US_PER_MINUTE;
                       tzinfo := None |})
      else Raise ParserError
  | None => Raise ParserError
  end.

Fixpoint decimal (acc : Z) (s : pystr) : outcome Z :=
  match s with
  | [] => Ok acc
  | c :: s' =>
      match digit c with
      | Some d => decimal (10 * acc + d) s'
      | None => Raise ValueError
      end
  end.

Definition int (s : pystr) : outcome Z :=
  match s with
  | [] => Raise ValueError
  | _ :: _ => decimal 0 s
  end.

Definition two_digits (n : Z) : pystr :=
  [Z.to_N (48 + n / 10 mod 10); Z.to_N (48 + n mod 10)].

Definition four_digits (n : Z) : pystr :=
  two_digits (n / 100) ++ two_digits n.

(** Year, month and day of the given day number (0 is 0001-01-01). *)
Definition civil (days : Z) : Z * Z * Z :=
  let z := days + 306 in
  let era := z / 146097 in
  let doe := z mod 146097 in
  let yoe := (doe - doe / 1460 + doe / 36524 - doe / 146096) / 365 in
  let doy := doe - (365 * yoe + yoe / 4 - yoe / 100) in
  let mp := (5 * doy + 2) / 153 in
  let d := doy - (153 * mp + 2) / 5 + 1 in
  let m := if mp <? 10 then mp + 3 else mp - 9 in
  let y := yoe + era * 400 + (if m <=? 2 then 1 else 0) in
  (y, m, d).

(** [str(dt)] for a naive datetime on a whole second. *)
Definition str (dt : datetime) : pystr :=
  let '(y, m, d) := civil (wall dt / US_PER_DAY) in
  let secs := wall dt mod US_PER_DAY / 1000000 in
  four_digits y ++ lit "-" ++ two_digits m ++ lit "-" ++ two_digits d ++ lit " "
  ++ two_digits (secs / 3600) ++ lit ":" ++ two_digits (secs / 60 mod 60)
  ++ lit ":" ++ two_digits (secs mod 60).

(** The scheduler knows the zone Europe/Kyiv as two hours east of
    Greenwich, and refuses a run date that falls before the year 1 on the
    UTC clock. *)
Definition scheduler (tz : pystr) (now : Z) (d : datetime) : outcome unit :=
  let offset := match tzinfo d with
                | Some off => off
                | None => 120 * US_PER_MINUTE
                end in
  if str_eqb tz (lit "Europe/Kyiv") && (0 <=? wall d - offset)
  then Ok tt else Raise ValueError.

Definition platform (utcoffset : Z) (entropy : nat -> N) : Platform :=
  Build_Platform (parse utcoffset) entropy utcoffset int str scheduler.

(** Every draw begins with the same four bytes. *)
Definition stuck_entropy (n : nat) : N :=
  (N.shiftl 0xdeadbeef 96 + N.of_nat n)%N.

(** The first four bytes count the draws. *)
Definition counting_entropy (n : nat) : N :=
  N.shiftl (N.of_nat (S n)) 96.

(** The third draw begins with the four bytes of the first. *)
Definition colliding_entropy (n : nat) : N :=
  N.shiftl (if Nat.eqb n 1 then 2 else 0xdeadbeef) 96.

Definition empty_world (now : Z) : World :=
  {| GIVEAWAYS := []; jobs := []; outbox := []; clock := now; drawn := 0%nat;
     attempts := [] |}.

(** 2024-05-01 19:00:00 UTC. *)
Definition evening : Z := 63850186800000000.

Definition text_message (s : pystr) : Msg.t :=
  {| Msg.text := Some s; Msg.caption := None; Msg.forward_from_chat := None |}.

(** The system clock runs on UTC. *)
Definition stuck : Platform := platform 0 stuck_entropy.
Definition counting : Platform := platform 0 counting_entropy.
Definition colliding : Platform := platform 0 colliding_entropy.

Definition start_world : World := empty_world evening.

Definition first_post : Msg.t := text_message (lit "giveaway one").
Definition second_post : Msg.t := text_message (lit "giveaway two https://t.me/x").
Definition third_post : Msg.t := text_message (lit "Stars: до 21:00").

Definition deadbeef : pystr := lit "deadbeef".

Definition press (token : pystr) : callback_query :=
  {| data := token; message_chat_id := 5 |}.
End Demo.

(** * Properties *)

(** ** The matcher against the match relation *)

Section MatcherFacts.
Context {U : Unicode}.

Lemma rep_loop_sound A p greedy s :
  forall lo hi prev (k : option char -> pystr -> option A) x,
    rep_loop p lo hi greedy prev s k = Some x ->
    exists prev' s', RepRun p lo hi prev s prev' s' /\ k prev' s' = Some x.
Proof.
  induction s as [|c s IH]; intros lo hi prev k x H.
  - assert (Hstop : forall y,
        (if Nat.eqb lo 0 then k prev [] else None) = Some y ->
        exists prev' s', RepRun p lo hi prev [] prev' s' /\ k prev' s' = Some y).
    { intros y Hy. destruct (Nat.eqb lo 0) eqn:E; [|discriminate].
      apply Nat.eqb_eq in E; subst. exists prev, []. split; auto. constructor. }
    destruct greedy; simpl in H.
    + now apply Hstop.
    + destruct (if Nat.eqb lo 0 then k prev [] else None) eqn:E1; [|discriminate].
      inversion H; subst. now apply Hstop.
  - assert (Hmore : forall y,
        (if p c && can_take hi
         then rep_loop p (pred lo) (dec_hi hi) greedy (Some c) s k else None) = Some y ->
        exists prev' s', RepRun p lo hi prev (c :: s) prev' s' /\ k prev' s' = Some y).
    { intros y Hy. destruct (p c) eqn:Ep; [|discriminate].
      destruct (can_take hi) eqn:Eh; [|discriminate]. simpl in Hy.
      destruct (IH _ _ _ _ _ Hy) as (prev' & s' & Hr & Hk).
      exists prev', s'. split; auto. now constructor. }
    assert (Hstop : forall y,
        (if Nat.eqb lo 0 then k prev (c :: s) else None) = Some y ->
        exists prev' s', RepRun p lo hi prev (c :: s) prev' s' /\ k prev' s' = Some y).
    { intros y Hy. destruct (Nat.eqb lo 0) eqn:E; [|discriminate].
      apply Nat.eqb_eq in E; subst. exists prev, (c :: s). split; auto. constructor. }
    destruct greedy; simpl in H.
    + destruct (if p c && can_take hi
                then rep_loop p (pred lo) (dec_hi hi) true (Some c) s k else None) eqn:E1.
      * inversion H; subst. now apply Hmore.
      * now apply Hstop.
    + destruct (if Nat.eqb lo 0 then k prev (c :: s) else None) eqn:E1.
      * inversion H; subst. now apply Hstop.
      * now apply Hmore.
Qed.

Lemma rep_loop_complete A p greedy lo hi prev s prev' s' :
  RepRun p lo hi prev s prev' s' ->
  forall (k : option char -> pystr -> option A),
    k prev' s' <> None -> rep_loop p lo hi greedy prev s k <> None.
Proof.
  induction 1 as [hi prev s | lo hi prev c s prev' s' Hp Hh Hr IH]; intros k Hk.
  - destruct s, greedy; simpl;
      repeat match goal with
             | |- match ?x with Some _ => _ | None => _ end <> None =>
                 destruct x eqn:?; [congruence|]
             end; congruence.
  - specialize (IH k Hk). destruct greedy; simpl; rewrite Hp, Hh; simpl.
    + destruct (rep_loop p (pred lo) (dec_hi hi) true (Some c) s k); congruence.
    + destruct (if Nat.eqb lo 0 then k prev (c :: s) else None); [congruence|].
      destruct (rep_loop p (pred lo) (dec_hi hi) false (Some c) s k); congruence.
Qed.

(** Whatever the matcher returns is the continuation's answer at a match. *)
Lemma match_here_sound A r :
  forall prev s cap (k : option char -> pystr -> option pystr -> option A) x,
    match_here r prev s cap k = Some x ->
    exists prev' s' cap', Matches r prev s cap prev' s' cap' /\ k prev' s' cap' = Some x.
Proof.
  induction r; intros prev s cap k x H; simpl in H.
  - exists prev, s, cap. split; auto. constructor.
  - destruct s as [|c s]; [discriminate|]. destruct (p c) eqn:E; [|discriminate].
    exists (Some c), s, cap. split; auto. now constructor.
  - apply IHr1 in H as (p1 & s1 & c1 & M1 & H).
    apply IHr2 in H as (p2 & s2 & c2 & M2 & H).
    exists p2, s2, c2. split; auto. econstructor; eauto.
  - destruct (match_here r1 prev s cap k) eqn:E.
    + inversion H; subst. apply IHr1 in E as (p1 & s1 & c1 & M1 & E).
      exists p1, s1, c1. split; auto. now apply M_AltL.
    + apply IHr2 in H as (p1 & s1 & c1 & M1 & E').
      exists p1, s1, c1. split; auto. now apply M_AltR.
  - destruct (match_here r prev s cap k) eqn:E.
    + inversion H; subst. apply IHr in E as (p1 & s1 & c1 & M1 & E).
      exists p1, s1, c1. split; auto. now apply M_OptSome.
    + exists prev, s, cap. split; auto. apply M_OptNone.
  - apply rep_loop_sound in H as (p1 & s1 & R & H).
    exists p1, s1, cap. split; auto. now constructor.
  - apply IHr in H as (p1 & s1 & c1 & M1 & H).
    exists p1, s1, (Some (firstn (length s - length s1) s)). split; auto.
    econstructor; eauto.
  - destruct (at_boundary prev s) eqn:E; [|discriminate].
    exists prev, s, cap. split; auto. now constructor.
Qed.

(** A match that the continuation accepts makes the matcher succeed. *)
Lemma match_here_complete A r prev s cap prev' s' cap' :
  Matches r prev s cap prev' s' cap' ->
  forall (k : option char -> pystr -> option pystr -> option A),
    k prev' s' cap' <> None -> match_here r prev s cap k <> None.
Proof.
  induction 1; intros k Hk; simpl.
  - assumption.
  - now rewrite H.
  - apply IHMatches1. now apply IHMatches2.
  - specialize (IHMatches k Hk).
    destruct (match_here r1 prev s cap k); congruence.
  - destruct (match_here r1 prev s cap k); [congruence|]. now apply IHMatches.
  - specialize (IHMatches k Hk).
    destruct (match_here r prev s cap k); congruence.
  - destruct (match_here r prev s cap k); congruence.
  - eapply rep_loop_complete; eauto.
  - now apply IHMatches.
  - now rewrite H.
Qed.
End MatcherFacts.

(** ** Prefixes, suffixes and the first match of a search *)

Section SearchFacts.
Context {U : Unicode}.

Lemma last_with_app d a b : last_with d (a ++ b) = last_with (last_with d a) b.
Proof. revert d. induction a as [|c a IH]; intros d; simpl; auto. Qed.

Lemma consumed_app (w s' : pystr) : firstn (length (w ++ s') - length s') (w ++ s') = w.
Proof.
  rewrite length_app, Nat.add_sub.
  rewrite firstn_app, Nat.sub_diag, firstn_all. simpl. now rewrite app_nil_r.
Qed.

Lemma RepRun_suffix p lo hi prev s prev' s' :
  RepRun p lo hi prev s prev' s' ->
  exists w, s = w ++ s' /\ prev' = last_with prev w /\ forallb p w = true
            /\ (lo <= length w)%nat.
Proof.
  induction 1 as [hi prev s | lo hi prev c s prev' s' Hp Hh Hr (w & -> & -> & Hw & Hl)].
  - exists []. repeat split; auto.
  - exists (c :: w). simpl. rewrite Hp, Hw. repeat split; auto. lia.
Qed.

Lemma Matches_suffix r prev s cap prev' s' cap' :
  Matches r prev s cap prev' s' cap' ->
  exists w, s = w ++ s' /\ prev' = last_with prev w.
Proof.
  induction 1.
  - exists []; auto.
  - exists [c]; auto.
  - destruct IHMatches1 as (w1 & -> & ->), IHMatches2 as (w2 & -> & ->).
    exists (w1 ++ w2). now rewrite app_assoc, last_with_app.
  - assumption.
  - assumption.
  - assumption.
  - exists []; auto.
  - apply RepRun_suffix in H as (w & -> & -> & _). now exists w.
  - assumption.
  - exists []; auto.
Qed.

Lemma match_at_sound r prev s s' cap :
  match_at r prev s = Some (s', cap) ->
  exists prev', Matches r prev s None prev' s' cap.
Proof.
  unfold match_at. intros H.
  apply match_here_sound in H as (p1 & s1 & c1 & M & E).
  inversion E; subst. now exists p1.
Qed.

Lemma match_at_complete r prev s prev' s' cap :
  Matches r prev s None prev' s' cap -> match_at r prev s <> None.
Proof.
  intros M. unfold match_at. eapply match_here_complete; eauto. discriminate.
Qed.

(** [re.search] returns the match at the first position that has one. *)
Lemma search_from_some r s :
  forall prev m,
    search_from r prev s = Some m ->
    exists pre suf s' cap,
      s = pre ++ suf
      /\ match_at r (last_with prev pre) suf = Some (s', cap)
      /\ m = {| whole := consumed suf s'; group1 := cap |}
      /\ (forall p1 p2, pre = p1 ++ p2 -> p2 <> [] ->
           match_at r (last_with prev p1) (p2 ++ suf) = None).
Proof.
  induction s as [|c s IH]; intros prev m H; simpl in H.
  - destruct (match_at r prev []) as [[s' cap]|] eqn:E; [|discriminate].
    inversion H; subst. exists [], [], s', cap. repeat split; auto.
    intros p1 p2 Hp Hn. destruct p1, p2; simpl in Hp; congruence.
  - destruct (match_at r prev (c :: s)) as [[s' cap]|] eqn:E.
    + inversion H; subst. exists [], (c :: s), s', cap. repeat split; auto.
      intros p1 p2 Hp Hn. destruct p1, p2; simpl in Hp; congruence.
    + apply IH in H as (pre & suf & s' & cap & -> & Hm & -> & Hfirst).
      exists (c :: pre), suf, s', cap. repeat split; auto.
      intros p1 p2 Hp Hn. destruct p1 as [|c1 p1]; simpl in Hp.
      * subst p2. simpl. exact E.
      * inversion Hp; subst. simpl. now apply Hfirst.
Qed.

Lemma search_from_none r s :
  forall prev,
    search_from r prev s = None ->
    forall pre suf, s = pre ++ suf -> match_at r (last_with prev pre) suf = None.
Proof.
  induction s as [|c s IH]; intros prev H pre suf Hs; simpl in H.
  - destruct pre, suf; simpl in Hs; try discriminate. simpl.
    destruct (match_at r prev []) as [[? ?]|]; congruence.
  - destruct (match_at r prev (c :: s)) as [[s' cap]|] eqn:E; [discriminate|].
    destruct pre as [|c1 pre]; simpl in Hs.
    + subst suf. exact E.
    + inversion Hs; subst. simpl. now apply IH.
Qed.

Lemma found_search_iff r t :
  found (re_search r t) = true <->
  exists pre suf, t = pre ++ suf /\ match_at r (last_with None pre) suf <> None.
Proof.
  unfold re_search. split.
  - destruct (search_from r None t) eqn:E; [|discriminate]. intros _.
    apply search_from_some in E as (pre & suf & s' & cap & -> & Hm & _).
    exists pre, suf. split; auto. congruence.
  - intros (pre & suf & -> & Hm).
    destruct (search_from r None (pre ++ suf)) eqn:E; [reflexivity|].
    exfalso. apply Hm. eapply search_from_none; eauto.
Qed.

Lemma Matches_word w :
  forall prev s cap prev' s' cap',
    Matches (word w) prev s cap prev' s' cap' <->
    s = w ++ s' /\ prev' = last_with prev w /\ cap' = cap.
Proof.
  induction w as [|c w IH]; intros prev s cap prev' s' cap'; simpl.
  - split.
    + inversion 1; subst. auto.
    + intros (-> & -> & ->). constructor.
  - split.
    + inversion 1 as [| |? ? ? ? ? ? ? ? ? ? ? M1 M2| | | | | | |]; subst.
      inversion M1; subst. apply IH in M2 as (-> & -> & ->).
      unfold char_eqb in *.
      match goal with H : N.eqb _ _ = true |- _ => apply N.eqb_eq in H; subst end.
      auto.
    + intros (-> & -> & ->). econstructor.
      * constructor. unfold char_eqb. apply N.eqb_refl.
      * apply IH. auto.
Qed.

Lemma Matches_word_ic w :
  forall prev s cap prev' s' cap',
    Matches (word_ic w) prev s cap prev' s' cap' <->
    exists x, ic_equal w x /\ s = x ++ s' /\ prev' = last_with prev x /\ cap' = cap.
Proof.
  induction w as [|c w IH]; intros prev s cap prev' s' cap'; simpl.
  - split.
    + inversion 1; subst. exists []. repeat split; auto. constructor.
    + intros (x & Hx & -> & -> & ->). inversion Hx; subst. constructor.
  - split.
    + inversion 1 as [| |? ? ? ? ? ? ? ? ? ? ? M1 M2| | | | | | |]; subst.
      inversion M1; subst. apply IH in M2 as (x & Hx & -> & -> & ->).
      exists (c0 :: x). repeat split; auto. now constructor.
    + intros (x & Hx & -> & -> & ->). inversion Hx; subst.
      econstructor.
      * now constructor.
      * apply IH. eexists; eauto.
Qed.
End SearchFacts.

(** ** The keyword patterns *)

Section KeywordFacts.
Context {U : Unicode}.

Lemma match_at_iff r prev s :
  match_at r prev s <> None <-> exists prev' s' cap, Matches r prev s None prev' s' cap.
Proof.
  split.
  - destruct (match_at r prev s) as [[s' cap]|] eqn:E; [|congruence]. intros _.
    apply match_at_sound in E as (prev' & M). now exists prev', s', cap.
  - intros (prev' & s' & cap & M). eapply match_at_complete; eauto.
Qed.

Lemma bounded_iff w prev s :
  match_at (bounded w) prev s <> None <-> word_here w prev s.
Proof.
  rewrite match_at_iff. unfold bounded, word_here. split.
  - intros (prev' & s' & cap & M).
    inversion M as [| |? ? ? ? ? ? ? ? ? ? ? M1 M2| | | | | | |]; subst.
    inversion M1; subst.
    inversion M2 as [| |? ? ? ? ? ? ? ? ? ? ? M3 M4| | | | | | |]; subst.
    apply Matches_word in M3 as (-> & -> & ->). inversion M4; subst.
    exists s'. auto.
  - intros (post & -> & B1 & B2).
    exists (last_with prev w), post, None.
    econstructor; [now constructor|].
    econstructor; [apply Matches_word; eauto|now constructor].
Qed.

Lemma bounded_opt_iff w c prev s :
  match_at (bounded_opt w c) prev s <> None <->
  word_here w prev s \/ word_here (w ++ [c]) prev s.
Proof.
  rewrite match_at_iff. unfold bounded_opt, word_here. split.
  - intros (prev' & s' & cap & M).
    inversion M as [| |? ? ? ? ? ? ? ? ? ? ? M1 M2| | | | | | |]; subst.
    inversion M1; subst.
    inversion M2 as [| |? ? ? ? ? ? ? ? ? ? ? M3 M4| | | | | | |]; subst.
    apply Matches_word in M3 as (-> & -> & ->).
    inversion M4 as [| |? ? ? ? ? ? ? ? ? ? ? M5 M6| | | | | | |]; subst.
    inversion M6; subst.
    inversion M5 as [| | | | |? ? ? ? ? ? ? M7| | | |]; subst.
    + inversion M7 as [| | | | | | | |? ? ? ? ? ? ? M8|]; subst.
      inversion M8; subst. unfold char_eqb in *.
      match goal with H : N.eqb _ _ = true |- _ => apply N.eqb_eq in H; subst end.
      right. exists s'. rewrite <- app_assoc. simpl.
      rewrite last_with_app. simpl. auto.
    + left. exists s'. auto.
  - intros [(post & -> & B1 & B2) | (post & -> & B1 & B2)].
    + exists (last_with prev w), post, None.
      econstructor; [now constructor|].
      econstructor; [apply Matches_word; eauto|].
      econstructor; [apply M_OptNone|now constructor].
    + rewrite <- app_assoc in *. simpl in *. rewrite last_with_app in B2. simpl in B2.
      exists (Some c), post, (Some [c]).
      econstructor; [now constructor|].
      econstructor; [apply Matches_word; eauto|].
      apply M_Cat with (prev1 := Some c) (s1 := post) (cap1 := Some [c]);
        [|now constructor].
      apply M_OptSome.
      replace (Some [c]) with
        (Some (firstn (length (c :: post) - length post) (c :: post))).
      * apply M_Group with (cap' := None). constructor. unfold char_eqb. apply N.eqb_refl.
      * f_equal. apply (consumed_app [c] post).
Qed.

Lemma word_at_here w t :
  word_at w t <->
  exists pre suf, t = pre ++ suf /\ word_here w (last_with None pre) suf.
Proof.
  unfold word_at, word_here. split.
  - intros (pre & post & -> & B1 & B2). exists pre, (w ++ post). eauto.
  - intros (pre & suf & -> & post & -> & B1 & B2). exists pre, post. auto.
Qed.

Lemma found_bounded w t : found (re_search (bounded w) t) = true <-> word_at w t.
Proof.
  rewrite found_search_iff, word_at_here.
  split; intros (pre & suf & -> & H); exists pre, suf; split; auto;
    now apply bounded_iff.
Qed.

Lemma found_bounded_opt w c t :
  found (re_search (bounded_opt w c) t) = true <-> word_at w t \/ word_at (w ++ [c]) t.
Proof.
  rewrite found_search_iff, !word_at_here. split.
  - intros (pre & suf & -> & H). apply bounded_opt_iff in H as [H|H];
      [left|right]; exists pre, suf; auto.
  - intros [(pre & suf & -> & H)|(pre & suf & -> & H)]; exists pre, suf; split; auto;
      apply bounded_opt_iff; auto.
Qed.

(** [matches_keywords] finds exactly the keywords that stand as words in
    the lower-cased text. *)
Lemma matches_keywords_iff t :
  matches_keywords (Some t) = true <-> has_keyword (str_lower t).
Proof.
  unfold matches_keywords.
  assert (E : (if truthy (Some t) then str_lower (or_empty (Some t)) else [])
              = str_lower t).
  { destruct t; simpl; auto. now rewrite str_lower_empty. }
  rewrite E. clear E. generalize (str_lower t). clear t. intros t.
  unfold has_keyword, KEYWORDS, KEYWORD_WORDS. simpl existsb.
  rewrite !orb_true_iff, !found_bounded, !found_bounded_opt.
  change (lit "gift" ++ [chr "s"]) with (lit "gifts").
  change (lit "star" ++ [chr "s"]) with (lit "stars").
  change (lit "портал" ++ [chr "с"]) with (lit "порталс").
  split.
  - intros H.
    repeat match goal with H : _ \/ _ |- _ => destruct H as [H|H] end;
      try discriminate;
      match goal with H : word_at ?w _ |- _ => exists w; split; [simpl; tauto|exact H] end.
  - intros (w & Hin & Hw). simpl in Hin.
    repeat match goal with H : _ \/ _ |- _ => destruct H as [H|H] end;
      try contradiction; subst w; tauto.
Qed.
End KeywordFacts.

(** ** The link pattern *)

Section UrlFacts.
Context {U : Unicode}.

Lemma rep_greedy_succeeds A p hi s :
  forall prev (k : option char -> pystr -> option A),
    (forall pv s', k pv s' <> None) -> rep_loop p 0 hi true prev s k <> None.
Proof.
  revert hi. induction s as [|c s IH]; intros hi prev k Hk; simpl.
  - apply Hk.
  - destruct (p c && can_take hi).
    + specialize (IH (dec_hi hi) (Some c) k Hk).
      destruct (rep_loop p 0 (dec_hi hi) true (Some c) s k); congruence.
    + apply Hk.
Qed.

(** A greedy unbounded repetition in front of a continuation that accepts
    everything takes the whole run. *)
Lemma rep_greedy_longest A p s :
  forall lo prev (k : option char -> pystr -> option A) x,
    (forall pv s', k pv s' <> None) ->
    rep_loop p lo None true prev s k = Some x ->
    exists w s',
      s = w ++ s' /\ forallb p w = true /\ (lo <= length w)%nat
      /\ match s' with [] => True | c :: _ => p c = false end
      /\ k (last_with prev w) s' = Some x.
Proof.
  induction s as [|c s IH]; intros lo prev k x Hk H; simpl in H.
  - destruct (Nat.eqb lo 0) eqn:E; [|discriminate]. apply Nat.eqb_eq in E. subst.
    exists [], []. repeat split; auto.
  - destruct (p c) eqn:Ep; simpl in H.
    + destruct (rep_loop p (pred lo) None true (Some c) s k) eqn:Er.
      * inversion H; subst.
        apply IH in Er as (w & s' & -> & Hw & Hl & He & Hx); auto.
        exists (c :: w), s'. simpl. rewrite Ep, Hw. repeat split; auto. lia.
      * destruct (Nat.eqb lo 0) eqn:E; [|discriminate]. apply Nat.eqb_eq in E. subst.
        exfalso. revert Er. now apply rep_greedy_succeeds.
    + destruct (Nat.eqb lo 0) eqn:E; [|discriminate]. apply Nat.eqb_eq in E. subst.
      exists [], (c :: s). repeat split; auto.
Qed.

Lemma RepRun_of_run p w s' :
  forall lo prev,
    forallb p w = true -> (lo <= length w)%nat ->
    RepRun p lo None prev (w ++ s') (last_with prev w) s'.
Proof.
  induction w as [|c w IH]; intros lo prev Hw Hl; simpl in *.
  - assert (lo = 0%nat) by lia. subst. constructor.
  - apply andb_true_iff in Hw as (Hc & Hw).
    apply RepRun_more; auto. apply IH; auto. lia.
Qed.

Lemma forallb_non_space w :
  forallb non_space w = true <-> Forall (fun c => isspace c = false) w.
Proof.
  rewrite forallb_forall, Forall_forall. unfold non_space.
  split; intros H c Hc; specialize (H c Hc); destruct (isspace c); auto; discriminate.
Qed.

Lemma ic_equal_snoc w x p c :
  ic_equal w x -> ic_match p c = true -> ic_equal (w ++ [p]) (x ++ [c]).
Proof.
  intros Hw Hc. apply Forall2_app; auto.
Qed.

(** What [URL_REGEX] returns at a position is a link that ends at white
    space or at the end of the text. *)
Lemma url_match_sound prev s s' cap :
  match_at URL_REGEX prev s = Some (s', cap) ->
  exists u, s = u ++ s' /\ UrlMatch u /\ token_end s' /\ cap = Some u.
Proof.
  unfold match_at, URL_REGEX. intros H.
  change (match_here (word_ic (lit "http")) prev s None
            (fun p1 s1 c1 =>
               match_here (Opt (Chr (ic_match (chr "s")))) p1 s1 c1
                 (fun p2 s2 c2 =>
                    match_here (word (lit "://")) p2 s2 c2
                      (fun p3 s3 _ =>
                         rep_loop non_space 1 None true p3 s3
                           (fun _ s4 =>
                              Some (s4, Some (firstn (length s - length s4) s))))))
          = Some (s', cap)) in H.
  apply match_here_sound in H as (p1 & s1 & c1 & M1 & H). cbv beta in H.
  apply match_here_sound in H as (p2 & s2 & c2 & M2 & H). cbv beta in H.
  apply match_here_sound in H as (p3 & s3 & c3 & M3 & H). cbv beta in H.
  apply rep_greedy_longest in H as (w & s4 & -> & Hw & Hl & He & H);
    [|discriminate].
  inversion H; subst s' cap. clear H.
  apply Matches_word_ic in M1 as (x1 & Hx1 & -> & -> & ->).
  apply Matches_word in M3 as (-> & -> & ->).
  assert (Hbody : w <> []) by (destruct w; simpl in Hl; [lia|discriminate]).
  assert (Hend : token_end s4).
  { destruct s4; simpl; auto. unfold non_space in He. now destruct (isspace c). }
  apply forallb_non_space in Hw.
  inversion M2 as [| | | | |? ? ? ? ? ? ? M4|? ? ? ? | | |]; subst.
  - inversion M4; subst.
    exists ((x1 ++ [c]) ++ lit "://" ++ w). repeat split; auto.
    + now rewrite <- !app_assoc.
    + exists (x1 ++ [c]), w. repeat split; auto. right.
      change (lit "https") with (lit "http" ++ [chr "s"]).
      now apply ic_equal_snoc.
    + f_equal.
      replace (x1 ++ c :: lit "://" ++ w ++ s4)
        with (((x1 ++ [c]) ++ lit "://" ++ w) ++ s4)
        by (rewrite <- !app_assoc; reflexivity).
      apply consumed_app.
  - exists (x1 ++ lit "://" ++ w). repeat split; auto.
    + now rewrite <- !app_assoc.
    + exists x1, w. repeat split; auto.
    + f_equal.
      replace (x1 ++ lit "://" ++ w ++ s4) with ((x1 ++ lit "://" ++ w) ++ s4)
        by (rewrite <- !app_assoc; reflexivity).
      apply consumed_app.
Qed.

Lemma run_unique b1 :
  forall b2 r1 r2,
    b1 ++ r1 = b2 ++ r2 ->
    Forall (fun c => isspace c = false) b1 ->
    Forall (fun c => isspace c = false) b2 ->
    token_end r1 -> token_end r2 ->
    b1 = b2 /\ r1 = r2.
Proof.
  induction b1 as [|c b1 IH]; intros b2 r1 r2 E F1 F2 T1 T2.
  - destruct b2 as [|c2 b2]; simpl in E; auto.
    subst r1. simpl in T1. inversion F2; subst. congruence.
  - destruct b2 as [|c2 b2]; simpl in E.
    + subst r2. simpl in T2. inversion F1; subst. congruence.
    + inversion E; subst. inversion F1; inversion F2; subst.
      destruct (IH b2 r1 r2) as (-> & ->); auto.
Qed.

Lemma scheme_shape scheme :
  ic_equal (lit "http") scheme \/ ic_equal (lit "https") scheme ->
  (exists a b c d, scheme = [a; b; c; d])
  \/ (exists a b c d e, scheme = [a; b; c; d; e]).
Proof.
  intros [H|H]; apply Forall2_length in H; vm_compute in H;
    destruct scheme as [|a [|b [|c [|d [|e [|f ?]]]]]]; try discriminate.
  - left. now exists a, b, c, d.
  - right. now exists a, b, c, d, e.
Qed.

(** At a given position there is one link that runs to the next white
    space. *)
Lemma url_unique u1 u2 r1 r2 :
  u1 ++ r1 = u2 ++ r2 ->
  UrlMatch u1 -> UrlMatch u2 -> token_end r1 -> token_end r2 ->
  u1 = u2 /\ r1 = r2.
Proof.
  intros E (sc1 & b1 & -> & S1 & _ & F1) (sc2 & b2 & -> & S2 & _ & F2) T1 T2.
  apply scheme_shape in S1, S2.
  change (lit "://") with [58%N; 47%N; 47%N] in *.
  destruct S1 as [(a & b & c & d & ->)|(a & b & c & d & e & ->)];
    destruct S2 as [(a' & b' & c' & d' & ->)|(a' & b' & c' & d' & e' & ->)];
    simpl in E; inversion E; subst.
  all: match goal with
       | H : _ ++ _ = _ ++ _ |- _ =>
           apply run_unique in H as (-> & ->)
       end; auto.
Qed.

Lemma url_match_complete prev u rest :
  UrlMatch u -> token_end rest ->
  match_at URL_REGEX prev (u ++ rest) = Some (rest, Some u).
Proof.
  intros Hu Hend.
  assert (M : exists prev', Matches URL_REGEX prev (u ++ rest) None prev' rest (Some u)).
  { destruct Hu as (sc & body & -> & Hs & Hn & Hb).
    exists (last_with prev (sc ++ lit "://" ++ body)).
    rewrite <- (consumed_app (sc ++ lit "://" ++ body) rest) at 3.
    unfold URL_REGEX. apply M_Group with (cap' := None).
    rewrite <- !app_assoc, !last_with_app.
    assert (Htail : forall pv,
      Matches (Cat (word (lit "://")) (Rep non_space 1 None true))
        pv (lit "://" ++ body ++ rest) None
        (last_with (last_with pv (lit "://")) body) rest None).
    { intros pv. econstructor.
      - apply Matches_word. eauto.
      - constructor. apply RepRun_of_run.
        + now apply forallb_non_space.
        + destruct body; simpl; [congruence|lia]. }
    destruct Hs as [Hs|Hs].
    - econstructor; [apply Matches_word_ic; exists sc; eauto|].
      econstructor; [apply M_OptNone|]. apply Htail.
    - change (lit "https") with (lit "http" ++ [chr "s"]) in Hs.
      apply Forall2_app_inv_l in Hs as (x & y & Hx & Hy & ->).
      inversion Hy as [|? c ? ? Hc Hnil]; subst. inversion Hnil; subst.
      rewrite <- !app_assoc, !last_with_app. simpl app.
      econstructor; [apply Matches_word_ic; exists x; eauto|].
      econstructor; [apply M_OptSome; now constructor|]. apply Htail. }
  destruct M as (prev' & M).
  destruct (match_at URL_REGEX prev (u ++ rest)) as [[s' cap]|] eqn:E.
  - apply url_match_sound in E as (u' & E & Hu' & Hend' & ->).
    destruct (@url_unique _ _ _ _ E Hu Hu' Hend Hend') as (-> & ->). reflexivity.
  - exfalso. revert E. eapply match_at_complete; eauto.
Qed.

Lemma url_match_none prev s :
  match_at URL_REGEX prev s = None <-> ~ starts_with_link s.
Proof.
  split.
  - intros E (u & rest & -> & sc & body & -> & Hs & Hn & Hb).
    (* the link is cut at its first white space *)
    assert (Hcut : exists b1 r1,
               body ++ rest = b1 ++ r1 /\ b1 <> []
               /\ Forall (fun c => isspace c = false) b1 /\ token_end r1).
    { clear - Hn Hb. revert Hn Hb. generalize body at 1 2 3 as b. intros b Hn Hb.
      destruct b as [|c b]; [congruence|]. clear Hn. inversion Hb; subst.
      assert (G : forall l, exists b1 r1,
                 l = b1 ++ r1 /\ Forall (fun c => isspace c = false) b1 /\ token_end r1).
      { induction l as [|x l (b1 & r1 & -> & F & T)].
        - exists [], []. simpl. auto.
        - destruct (isspace x) eqn:Ex.
          + exists [], (x :: b1 ++ r1). simpl. auto.
          + exists (x :: b1), r1. simpl. auto. }
      destruct (G (b ++ rest)) as (b1 & r1 & E1 & F1 & T1).
      exists (c :: b1), r1. simpl. rewrite E1. repeat split; auto; discriminate. }
    destruct Hcut as (b1 & r1 & E1 & N1 & F1 & T1).
    assert (Hu : UrlMatch (sc ++ lit "://" ++ b1)) by (exists sc, b1; auto).
    pose proof (@url_match_complete prev _ _ Hu T1) as C.
    rewrite <- !app_assoc in C, E. rewrite <- E1 in C. congruence.
  - intros H. destruct (match_at URL_REGEX prev s) as [[s' cap]|] eqn:E; auto.
    exfalso. apply H. apply url_match_sound in E as (u & -> & Hu & _).
    now exists u, s'.
Qed.
End UrlFacts.

(** ** [re.findall] with the link pattern *)

Section FindallFacts.
Context {U : Unicode}.

Lemma findall_from_0 r prev s :
  findall_from r 0 prev s =
  match match_at r prev s with
  | Some (s', cap) =>
      group_str cap ::
      match s with
      | [] => []
      | c :: s'' => findall_from r (pred (length s - length s')) (Some c) s''
      end
  | None =>
      match s with
      | [] => []
      | c :: s'' => findall_from r 0 (Some c) s''
      end
  end.
Proof. destruct s; reflexivity. Qed.

Lemma findall_skip r a :
  forall prev b,
    findall_from r (length a) prev (a ++ b) = findall_from r 0 (last_with prev a) b.
Proof.
  induction a as [|c a IH]; intros prev b.
  - reflexivity.
  - simpl. apply IH.
Qed.

Lemma UrlMatch_nonempty u : UrlMatch u -> u <> [].
Proof.
  intros (sc & body & -> & _ & Hn & _) E.
  apply app_eq_nil in E as (_ & E). discriminate.
Qed.

Lemma findall_gap gap :
  forall prev s,
    (forall g1 g2, gap = g1 ++ g2 -> g2 <> [] -> ~ starts_with_link (g2 ++ s)) ->
    findall_from URL_REGEX 0 prev (gap ++ s)
    = findall_from URL_REGEX 0 (last_with prev gap) s.
Proof.
  induction gap as [|c gap IH]; intros prev s H.
  - reflexivity.
  - rewrite findall_from_0.
    assert (E : match_at URL_REGEX prev ((c :: gap) ++ s) = None).
    { apply url_match_none. apply (H [] (c :: gap)); [reflexivity|discriminate]. }
    rewrite E. simpl. apply IH. intros g1 g2 -> Hn.
    apply (H (c :: g1) g2); auto.
Qed.

Lemma findall_link prev u rest :
  UrlMatch u -> token_end rest ->
  findall_from URL_REGEX 0 prev (u ++ rest)
  = u :: findall_from URL_REGEX 0 (last_with prev u) rest.
Proof.
  intros Hu Hend. rewrite findall_from_0, (@url_match_complete _ prev u rest Hu Hend).
  simpl group_str. f_equal.
  destruct u as [|c u]; [now apply UrlMatch_nonempty in Hu|].
  simpl app. simpl length. rewrite length_app.
  replace (pred (S (length u + length rest) - length rest)) with (length u) by lia.
  simpl last_with. apply findall_skip.
Qed.

Lemma findall_no_link t :
  forall prev, ~ contains_link t -> findall_from URL_REGEX 0 prev t = [].
Proof.
  induction t as [|c t IH]; intros prev H; rewrite findall_from_0.
  - reflexivity.
  - replace (match_at URL_REGEX prev (c :: t)) with (@None (pystr * option pystr)).
    + apply IH. intros (pre & s & -> & L). apply H. now exists (c :: pre), s.
    + symmetry. apply url_match_none. intros L. apply H. now exists [], (c :: t).
Qed.

(** The scan determines what [re.findall] returns. *)
Lemma findall_of_scan t l :
  url_scan t l -> forall prev, findall_from URL_REGEX 0 prev t = l.
Proof.
  induction 1 as [t H | gap u rest l Hgap Hu Hend Hscan IH]; intros prev.
  - now apply findall_no_link.
  - rewrite findall_gap; auto. rewrite findall_link; auto. now rewrite IH.
Qed.

(** Every text has a scan. *)
Lemma scan_exists n :
  forall t, (length t <= n)%nat -> exists l, url_scan t l.
Proof.
  induction n as [|n IH]; intros t Hlen.
  - destruct t; [|simpl in Hlen; lia]. exists []. apply scan_done.
    intros (pre & s & E & u & rest & -> & Hu).
    symmetry in E. apply app_eq_nil in E as (_ & E). apply app_eq_nil in E as (E & _).
    now apply UrlMatch_nonempty in Hu.
  - destruct (search_from URL_REGEX None t) as [m|] eqn:E.
    + apply search_from_some in E as (pre & suf & s' & cap & -> & Hm & _ & Hfirst).
      apply url_match_sound in Hm as (u & -> & Hu & Hend & _).
      destruct (IH s') as (l & Hl).
      { pose proof (@UrlMatch_nonempty u Hu) as Hn. rewrite !length_app in Hlen.
        destruct u; [congruence|]. simpl in Hlen. lia. }
      exists (u :: l). apply scan_link; auto.
      intros g1 g2 -> Hn. apply url_match_none with (prev := last_with None g1).
      now apply Hfirst.
    + exists []. apply scan_done. intros (pre & s & -> & L).
      revert L. apply url_match_none with (prev := last_with None pre).
      eapply search_from_none; eauto.
Qed.

Lemma extract_links_iff t l : extract_links (Some t) = l <-> url_scan t l.
Proof.
  assert (E : extract_links (Some t) = findall_from URL_REGEX 0 None t).
  { unfold extract_links, re_findall. now destruct t. }
  split.
  - intros <-. destruct (@scan_exists _ t (le_n _)) as (l & Hl).
    rewrite E, (@findall_of_scan t l Hl None). exact Hl.
  - intros H. rewrite E. now apply findall_of_scan.
Qed.

Lemma extract_links_nonempty t : extract_links (Some t) <> [] <-> contains_link t.
Proof.
  pose proof (proj1 (extract_links_iff t _) eq_refl) as H. split.
  - intros Hn. inversion H as [t' Hno E|gap u rest l Hgap Hu Hend Hscan E1 E2].
    + congruence.
    + exists gap, (u ++ rest). split; auto. now exists u, rest.
  - intros Hc Hnil. rewrite Hnil in H. inversion H. contradiction.
Qed.
End FindallFacts.

(** ** The classifier *)

Section Classifier.
Context {U : Unicode}.

(** C2: the links of a text are exactly its scan from the left: every
    link starts at the first position where the pattern ([http] or [https]
    in any case, [://], characters that are not white space) can start
    behind the previous link, runs to the next white space, and the links
    come in the order of the text, repeated ones included; an absent or
    empty text has no links. *)
Theorem extract_links_scan :
  (forall t l, extract_links (Some t) = l <-> url_scan t l)
  /\ extract_links None = []
  /\ extract_links (Some []) = [].
Proof.
  split; [apply extract_links_iff|]. split; reflexivity.
Qed.

(** C1: a text is a candidate exactly when a keyword stands as a word in
    its lower-cased form or a link was extracted from it; a text that
    contains a link is a candidate whatever its words, and a text with
    neither keyword nor link is not. *)
Theorem is_giveaway_iff (t : pystr) :
  (is_giveaway t = true <->
   has_keyword (str_lower t) \/ extract_links (Some t) <> [])
  /\ (contains_link t -> is_giveaway t = true)
  /\ (~ has_keyword (str_lower t) -> ~ contains_link t -> is_giveaway t = false).
Proof.
  assert (L : negb (Nat.eqb (length (extract_links (Some t))) 0) = true
              <-> extract_links (Some t) <> []).
  { destruct (extract_links (Some t)); simpl; split; congruence. }
  assert (E : is_giveaway t = true <->
              has_keyword (str_lower t) \/ extract_links (Some t) <> []).
  { unfold is_giveaway. now rewrite orb_true_iff, matches_keywords_iff, L. }
  split; [exact E|]. split.
  - intros H. apply E. right. now apply extract_links_nonempty.
  - intros Hk Hl. apply not_true_is_false. intros G.
    apply E in G as [G|G]; auto.
    apply Hl. now apply extract_links_nonempty.
Qed.
End Classifier.

(** ** The deadline extractor *)

Section Deadline.
Context {U : Unicode} {P : Platform}.

Lemma add_attempts_nil w : add_attempts [] w = w.
Proof. destruct w. unfold add_attempts. simpl. now rewrite app_nil_r. Qed.

Lemma add_attempts_app a b w :
  add_attempts b (add_attempts a w) = add_attempts (a ++ b) w.
Proof. unfold add_attempts. simpl. now rewrite app_assoc. Qed.

Lemma log_attempt_add a w : log_attempt a w = add_attempts [a] w.
Proof. reflexivity. Qed.

(** The loop over the hints returns a value and only adds to the log. *)
Lemma try_hints_total hints text :
  forall w, exists v l, try_hints hints text w = (Ok v, add_attempts l w).
Proof.
  induction hints as [|pat hints IH]; intros w; simpl.
  - exists None, []. now rewrite add_attempts_nil.
  - unfold bind, re_search_hint. rewrite log_attempt_add.
    destruct (re_search pat text) as [mo|].
    + unfold try_except, dateparser_parse.
      destruct (group1 mo) as [g|].
      * rewrite log_attempt_add, add_attempts_app.
        destruct (dateutil_parse (clock (add_attempts [SearchAttempt text] w)) g)
          as [v|e].
        -- now exists v, ([SearchAttempt text] ++ [ParseAttempt g]).
        -- destruct (IH (add_attempts ([SearchAttempt text] ++ [ParseAttempt g]) w))
             as (v & l & E).
           rewrite E, add_attempts_app. eauto.
      * unfold raise. destruct (IH (add_attempts [SearchAttempt text] w)) as (v & l & E).
        rewrite E, add_attempts_app. eauto.
    + destruct (IH (add_attempts [SearchAttempt text] w)) as (v & l & E).
      rewrite E, add_attempts_app. eauto.
Qed.

(** The comparison of step 1 reads the clock: the parsed datetime is later
    than now exactly when its instant is after the clock. *)
Lemma later_than_now d w :
  datetime_now (tzinfo d) w = (Ok (match tzinfo d with
                                   | None => {| wall := clock w + local_utcoffset;
                                                tzinfo := None |}
                                   | Some off => {| wall := clock w + off;
                                                    tzinfo := Some off |}
                                   end%Z), w)
  /\ datetime_gt d (match tzinfo d with
                    | None => {| wall := clock w + local_utcoffset; tzinfo := None |}
                    | Some off => {| wall := clock w + off; tzinfo := Some off |}
                    end%Z)
     = Ok (clock w <? instant d)%Z.
Proof.
  split; [reflexivity|].
  unfold datetime_gt, instant.
  destruct (tzinfo d) as [off|] eqn:E; simpl; f_equal.
  - destruct (Z.ltb_spec (clock w + off - off) (wall d - off)),
             (Z.ltb_spec (clock w) (wall d - off)); auto; lia.
  - destruct (Z.ltb_spec (clock w + local_utcoffset) (wall d)),
             (Z.ltb_spec (clock w) (wall d - local_utcoffset)); auto; lia.
Qed.

Lemma extract_deadline_steps c s w :
  extract_deadline (Some (c :: s)) w =
  match general_parse (c :: s) w with
  | Some d => (Ok (Some d), log_attempt (ParseAttempt (c :: s)) w)
  | None => try_hints DEADLINE_HINTS (c :: s) (log_attempt (ParseAttempt (c :: s)) w)
  end.
Proof.
  unfold extract_deadline, general_parse. cbn [truthy negb or_empty]. cbv zeta.
  unfold bind, try_except, dateparser_parse.
  destruct (dateutil_parse (clock w) (c :: s)) as [[d|]|e]; try reflexivity.
  destruct (later_than_now d (log_attempt (ParseAttempt (c :: s)) w)) as (E1 & E2).
  rewrite E1. unfold lift. rewrite E2.
  change (clock (log_attempt (ParseAttempt (c :: s)) w)) with (clock w).
  destruct (clock w <? instant d)%Z; reflexivity.
Qed.

Lemma extract_deadline_total text :
  forall w, exists v l, extract_deadline text w = (Ok v, add_attempts l w).
Proof.
  intros w. destruct text as [[|c s]|].
  - exists None, []. now rewrite add_attempts_nil.
  - rewrite extract_deadline_steps, log_attempt_add.
    destruct (general_parse (c :: s) w) as [d|].
    + now exists (Some d), [ParseAttempt (c :: s)].
    + destruct (try_hints_total DEADLINE_HINTS (c :: s)
                  (add_attempts [ParseAttempt (c :: s)] w)) as (v & l & E).
      rewrite E, add_attempts_app. eauto.
  - exists None, []. now rewrite add_attempts_nil.
Qed.

(** C10: for an absent or an empty text [extract_deadline] returns absent
    at once: the world is left as it was, so neither the parser nor a hint
    pattern was tried; for any other text the first thing tried is the
    general parse of the whole text. *)
Theorem extract_deadline_absent (w : World) :
  extract_deadline None w = (Ok None, w)
  /\ extract_deadline (Some []) w = (Ok None, w)
  /\ (forall c s, exists l,
        attempts (snd (extract_deadline (Some (c :: s)) w))
        = attempts w ++ ParseAttempt (c :: s) :: l).
Proof.
  split; [reflexivity|]. split; [reflexivity|].
  intros c s. rewrite extract_deadline_steps.
  destruct (general_parse (c :: s) w) as [d|].
  - exists []. reflexivity.
  - destruct (try_hints_total DEADLINE_HINTS (c :: s)
                (log_attempt (ParseAttempt (c :: s)) w)) as (v & l & E).
    rewrite E. exists l. simpl. now rewrite <- app_assoc.
Qed.

(** C5: the general parse of step 1 is returned only when its instant is
    strictly after the clock; a result at or before the clock, an absent
    result and an exception of the parser or of the comparison all lead to
    the hint patterns; in the hint loop a parse that raises passes to the
    next pattern; and [extract_deadline] itself never raises. *)
Theorem extract_deadline_general_parse (c : char) (s : pystr) (w : World) :
  let text := c :: s in
  let w1 := log_attempt (ParseAttempt text) w in
  (forall d, dateutil_parse (clock w) text = Ok (Some d) ->
     if (clock w <? instant d)%Z
     then extract_deadline (Some text) w = (Ok (Some d), w1)
     else extract_deadline (Some text) w = try_hints DEADLINE_HINTS text w1)
  /\ (dateutil_parse (clock w) text = Ok None ->
      extract_deadline (Some text) w = try_hints DEADLINE_HINTS text w1)
  /\ (forall e, dateutil_parse (clock w) text = Raise e ->
      extract_deadline (Some text) w = try_hints DEADLINE_HINTS text w1)
  /\ (forall pat hints mo g e w0,
      re_search pat text = Some mo -> group1 mo = Some g ->
      dateutil_parse (clock w0) g = Raise e ->
      try_hints (pat :: hints) text w0
      = try_hints hints text
          (log_attempt (ParseAttempt g) (log_attempt (SearchAttempt text) w0)))
  /\ (forall t w0, exists v w', extract_deadline t w0 = (Ok v, w')).
Proof.
  intros text w1. subst text w1. repeat split.
  - intros d E. rewrite extract_deadline_steps. unfold general_parse. rewrite E.
    destruct (clock w <? instant d)%Z; reflexivity.
  - intros E. rewrite extract_deadline_steps. unfold general_parse. now rewrite E.
  - intros e E. rewrite extract_deadline_steps. unfold general_parse. now rewrite E.
  - intros pat hints mo g e w0 Hs Hg Hp. simpl.
    unfold bind, re_search_hint, try_except, dateparser_parse.
    rewrite Hs, Hg. simpl clock. now rewrite Hp.
  - intros t w0. destruct (extract_deadline_total t w0) as (v & l & E). eauto.
Qed.
End Deadline.

(** ** Dictionaries and strings *)

Section DictFacts.
Variable V : Type.
Implicit Types (d : list (pystr * V)) (k : pystr).

Lemma str_eqb_eq (a b : pystr) : str_eqb a b = true <-> a = b.
Proof.
  revert b. induction a as [|x a IH]; intros [|y b]; simpl; split; try congruence; auto.
  - intros H. apply andb_true_iff in H as (H1 & H2).
    apply N.eqb_eq in H1. apply IH in H2. congruence.
  - intros H. inversion H; subst. apply andb_true_iff. split.
    + apply N.eqb_refl.
    + now apply IH.
Qed.

Lemma str_eqb_refl (a : pystr) : str_eqb a a = true.
Proof. now apply str_eqb_eq. Qed.

Lemma str_eqb_neq (a b : pystr) : a <> b -> str_eqb a b = false.
Proof.
  intros H. destruct (str_eqb a b) eqn:E; auto. now apply str_eqb_eq in E.
Qed.

Lemma dict_get_set_same k (v : V) d : dict_get k (dict_set k v d) = Some v.
Proof.
  induction d as [|[k' v'] d IH]; simpl.
  - now rewrite str_eqb_refl.
  - destruct (str_eqb k k') eqn:E; simpl; rewrite E; auto.
Qed.

Lemma dict_get_set_other k k' (v : V) d :
  k' <> k -> dict_get k' (dict_set k v d) = dict_get k' d.
Proof.
  intros H. induction d as [|[k0 v0] d IH]; simpl.
  - now rewrite str_eqb_neq.
  - destruct (str_eqb k k0) eqn:E; simpl.
    + apply str_eqb_eq in E. subst k0. now rewrite (str_eqb_neq H).
    + now rewrite IH.
Qed.

Lemma dict_set_fresh k (v : V) d :
  dict_get k d = None -> dict_set k v d = d ++ [(k, v)].
Proof.
  induction d as [|[k0 v0] d IH]; simpl; auto.
  destruct (str_eqb k k0); [discriminate|]. intros H. now rewrite IH.
Qed.

Lemma dict_set_keys k (v : V) d :
  dict_get k d <> None -> map fst (dict_set k v d) = map fst d.
Proof.
  induction d as [|[k0 v0] d IH]; simpl; [congruence|].
  destruct (str_eqb k k0); simpl; auto. intros H. now rewrite IH.
Qed.

Lemma dict_get_update_same k (f : V -> V) d :
  dict_get k (dict_update k f d) = option_map f (dict_get k d).
Proof.
  induction d as [|[k' v'] d IH]; simpl; auto.
  destruct (str_eqb k k') eqn:E; simpl; rewrite E; auto.
Qed.

Lemma dict_get_update_other k k' (f : V -> V) d :
  k' <> k -> dict_get k' (dict_update k f d) = dict_get k' d.
Proof.
  intros H. induction d as [|[k0 v0] d IH]; simpl; auto.
  destruct (str_eqb k k0) eqn:E; simpl.
  - apply str_eqb_eq in E. subst k0. now rewrite (str_eqb_neq H).
  - now rewrite IH.
Qed.

Lemma dict_update_absent k (f : V -> V) d :
  dict_get k d = None -> dict_update k f d = d.
Proof.
  induction d as [|[k0 v0] d IH]; simpl; auto.
  destruct (str_eqb k k0); [discriminate|]. intros H. now rewrite IH.
Qed.

Lemma dict_update_fixed k (f : V -> V) d :
  (forall v, dict_get k d = Some v -> f v = v) -> dict_update k f d = d.
Proof.
  induction d as [|[k0 v0] d IH]; simpl; auto.
  destruct (str_eqb k k0); intros H.
  - now rewrite H.
  - now rewrite IH.
Qed.
End DictFacts.

Section SplitFacts.
Lemma colon_free_cons c s :
  colon_free (c :: s) = true <-> c <> colon /\ colon_free s = true.
Proof.
  unfold colon_free. simpl. rewrite andb_true_iff, negb_true_iff.
  unfold char_eqb. rewrite N.eqb_neq. tauto.
Qed.

Lemma split_colon_free s : colon_free s = true -> split colon s = [s].
Proof.
  induction s as [|c s IH]; intros H; simpl; auto.
  apply colon_free_cons in H as (Hc & Hs).
  unfold char_eqb. rewrite (proj2 (N.eqb_neq c colon) Hc). now rewrite IH.
Qed.

Lemma split_at_colon a b :
  colon_free a = true -> split colon (a ++ colon :: b) = a :: split colon b.
Proof.
  induction a as [|c a IH]; intros H; simpl.
  - reflexivity.
  - apply colon_free_cons in H as (Hc & Hs).
    unfold char_eqb. rewrite (proj2 (N.eqb_neq c colon) Hc). now rewrite IH.
Qed.

Lemma hex_digit_not_colon d : (d < 16)%N -> hex_digit d <> colon.
Proof.
  unfold hex_digit, colon. intros H. destruct (N.ltb_spec d 10); lia.
Qed.

Lemma hex_digits_colon_free len : forall n, colon_free (hex_digits len n) = true.
Proof.
  induction len as [|len IH]; intros n; simpl; auto.
  unfold colon_free in *. rewrite forallb_app, IH. simpl.
  rewrite andb_true_r, negb_true_iff. unfold char_eqb. apply N.eqb_neq.
  apply hex_digit_not_colon. apply N.mod_lt. discriminate.
Qed.

Lemma colon_free_firstn n s : colon_free s = true -> colon_free (firstn n s) = true.
Proof.
  revert n. induction s as [|c s IH]; intros [|n] H; simpl; auto.
  apply colon_free_cons in H as (Hc & Hs).
  change (colon_free (c :: firstn n s) = true). apply colon_free_cons. auto.
Qed.

(** An identifier is made of hexadecimal digits. *)
Lemma hex_digits_length len : forall n, length (hex_digits len n) = len.
Proof.
  induction len as [|len IH]; intros n; simpl; auto.
  rewrite length_app, IH. simpl. lia.
Qed.

Lemma gid_colon_free i : colon_free (firstn 8 (str_uuid i)) = true.
Proof.
  unfold str_uuid.
  pose proof (hex_digits_length 32 i) as Hl.
  pose proof (hex_digits_colon_free 32 i) as Hc.
  destruct (hex_digits 32 i) as [|a0 [|a1 [|a2 [|a3 [|a4 [|a5 [|a6 [|a7 h]]]]]]]];
    try discriminate Hl.
  exact (colon_free_firstn 8 _ Hc).
Qed.
End SplitFacts.

(** ** The handlers, step by step *)

Section HandlerFacts.
Context {U : Unicode} {P : Platform}.

Lemma set_GIVEAWAYS_same w : set_GIVEAWAYS (GIVEAWAYS w) w = w.
Proof. now destruct w. Qed.

Lemma set_archived_fixed g : archived g = true -> set_archived g = g.
Proof. destruct g; simpl; intros ->; reflexivity. Qed.

Lemma job_gone chat gid w : gone gid w -> job chat gid w = (Ok tt, w).
Proof.
  unfold gone, job, bind, gets.
  destruct (dict_get gid (GIVEAWAYS w)) as [g|]; [|reflexivity].
  now intros ->.
Qed.

Lemma job_live chat gid w g :
  dict_get gid (GIVEAWAYS w) = Some g -> archived g = false ->
  job chat gid w
  = (Ok tt, emit (SendMessage chat (lit "⏰ Напоминание по розыгрышу " ++ gid)
                    (build_buttons (links g) gid (deadline g))) w).
Proof.
  intros Hg Ha. unfold job, bind, gets. now rewrite Hg, Ha.
Qed.

Lemma schedule_reminder_run chat gid minutes w :
  schedule_reminder chat gid minutes w =
  match scheduled w minutes with
  | Ok d => (Ok tt, add_job {| job_chat_id := chat; job_gid := gid; run_date := d |} w)
  | Raise e => (Raise e, w)
  end.
Proof.
  unfold schedule_reminder, scheduled, when_of, scheduler_add, bind, datetime_now,
    gets, lift, modify.
  destruct (timedelta_minutes minutes) as [delta|e]; [|reflexivity].
  destruct (datetime_add _ delta) as [d|e]; [|reflexivity].
  cbn [run_date]. destruct (scheduler_add_job SCHEDULER_TIMEZONE (clock w) d); reflexivity.
Qed.

Lemma on_button_archive gid chat w :
  colon_free gid = true ->
  on_button {| data := archive_token gid; message_chat_id := chat |} w
  = (Ok tt,
     emit (archive_ack gid)
       (set_GIVEAWAYS (dict_update gid set_archived (GIVEAWAYS w)) (emit Answer w))).
Proof.
  intros Hc. unfold on_button. cbn [data message_chat_id].
  assert (E1 : startswith (lit "remind:") (archive_token gid) = false) by reflexivity.
  assert (E2 : startswith (lit "archive:") (archive_token gid) = true) by reflexivity.
  assert (E3 : split colon (archive_token gid) = [lit "archive"; gid]).
  { change (archive_token gid) with (lit "archive" ++ colon :: gid).
    rewrite split_at_colon by reflexivity. now rewrite split_colon_free. }
  unfold bind at 1. unfold send at 1, modify at 1.
  rewrite E1, E2, E3. unfold bind, gets, send, modify, dict_mem. cbn [GIVEAWAYS emit].
  destruct (dict_get gid (GIVEAWAYS w)) eqn:G; [reflexivity|].
  rewrite dict_update_absent by assumption. unfold ret.
  change (GIVEAWAYS w) with (GIVEAWAYS (emit Answer w)).
  now rewrite set_GIVEAWAYS_same.
Qed.

Lemma on_button_remind gid mins chat w :
  colon_free gid = true -> colon_free mins = true ->
  on_button {| data := remind_token gid mins; message_chat_id := chat |} w =
  match py_int mins with
  | Ok n =>
      match scheduled w n with
      | Ok d =>
          (Ok tt,
           emit (remind_ack gid mins)
             (add_job {| job_chat_id := chat; job_gid := gid; run_date := d |}
                (emit Answer w)))
      | Raise e => (Raise e, emit Answer w)
      end
  | Raise e => (Raise e, emit Answer w)
  end.
Proof.
  intros Hg Hm. unfold on_button. cbn [data message_chat_id].
  assert (E1 : startswith (lit "remind:") (remind_token gid mins) = true) by reflexivity.
  assert (E3 : split colon (remind_token gid mins) = [lit "remind"; gid; mins]).
  { change (remind_token gid mins) with (lit "remind" ++ colon :: gid ++ colon :: mins).
    rewrite split_at_colon by reflexivity. rewrite split_at_colon by assumption.
    now rewrite split_colon_free. }
  unfold bind at 1. unfold send at 1, modify at 1.
  rewrite E1, E3. unfold bind, lift.
  destruct (py_int mins) as [n|e]; [|reflexivity].
  rewrite schedule_reminder_run.
  change (scheduled (emit Answer w) n) with (scheduled w n).
  destruct (scheduled w n); reflexivity.
Qed.

Lemma handle_forward_rejected msg w :
  is_giveaway (message_text msg) = false ->
  handle_forward msg w
  = (Ok tt,
     emit (ReplyText
        (lit "Не похоже на розыгрыш. Если всё же он — пришли сообщение с ссылкой/условиями.")
        None) w).
Proof.
  intros H. unfold handle_forward. fold (message_text msg). now rewrite H.
Qed.

Lemma handle_forward_candidate msg w :
  is_giveaway (message_text msg) = true ->
  exists deadline l reply,
    fst (extract_deadline (Some (message_text msg)) (count_draw w)) = Ok deadline
    /\ handle_forward msg w
       = (Ok tt,
          {| GIVEAWAYS := dict_set (next_gid w) (card_of msg deadline) (GIVEAWAYS w);
             jobs := jobs w;
             outbox := outbox w
               ++ [ReplyText reply
                     (Some (build_buttons (extract_links (Some (message_text msg)))
                              (next_gid w) deadline))];
             clock := clock w;
             drawn := S (drawn w);
             attempts := attempts w ++ l |}).
Proof.
  intros H. unfold handle_forward. fold (message_text msg). rewrite H.
  cbn [negb]. unfold bind at 1. unfold uuid4. fold (next_gid w).
  unfold bind at 1.
  destruct (extract_deadline_total (Some (message_text msg)) (count_draw w))
    as (deadline & l & E).
  rewrite E. exists deadline, l. eexists. split; [reflexivity|].
  unfold bind, modify, send, emit, set_GIVEAWAYS, card_of. cbn.
  reflexivity.
Qed.

Lemma list_cmd_run w :
  list_cmd w =
  (Ok tt,
   emit (ReplyText
           match active_cards (GIVEAWAYS w) with
           | [] => lit "Сейчас нет активных карточек."
           | _ :: _ =>
               lit "Активные:" ++ newline ++
               join newline (map list_line (firstn 20 (active_cards (GIVEAWAYS w))))
           end None) w).
Proof.
  unfold list_cmd, bind, gets, send, modify.
  destruct (active_cards (GIVEAWAYS w)); reflexivity.
Qed.
End HandlerFacts.

(** ** Reminders *)

Section Reminders.
Context {U : Unicode} {P : Platform}.

Lemma sent_by_emit (h : Bot unit) w o r :
  h w = (r, emit o w) -> sent_by h w = [o].
Proof.
  intros E. unfold sent_by. rewrite E. simpl.
  rewrite skipn_app, skipn_all, Nat.sub_diag. reflexivity.
Qed.

(** C3: a reminder scheduled for an identifier does nothing when it fires
    while the card is archived or missing: the world, and with it the
    outbox, stays as it was.  Scheduling does not look at the registry at
    all; what the job does is decided by the registry at the time it
    fires, and it notifies when the card is there and not archived. *)
Theorem reminder_checks_when_fired (chat : Z) (gid : pystr) (minutes : Z) (w w1 : World) :
  schedule_reminder chat gid minutes w = (Ok tt, w1) ->
  exists j,
    jobs w1 = jobs w ++ [j]
    /\ job_chat_id j = chat /\ job_gid j = gid
    /\ GIVEAWAYS w1 = GIVEAWAYS w /\ outbox w1 = outbox w
    /\ (forall w2, gone gid w2 -> fire j w2 = (Ok tt, w2))
    /\ (forall w2 g,
          dict_get gid (GIVEAWAYS w2) = Some g -> archived g = false ->
          sent_by (fire j) w2
          = [SendMessage chat (lit "⏰ Напоминание по розыгрышу " ++ gid)
               (build_buttons (links g) gid (deadline g))]).
Proof.
  rewrite schedule_reminder_run. destruct (scheduled w minutes) as [d|e]; [|discriminate].
  intros E. inversion E; subst w1. clear E.
  exists {| job_chat_id := chat; job_gid := gid; run_date := d |}.
  repeat split; auto.
  - intros w2 Hg. now apply job_gone.
  - intros w2 g Hg Ha. unfold fire. cbn [job_chat_id job_gid].
    eapply sent_by_emit. now apply job_live.
Qed.
End Reminders.

(** ** The registry *)

Section Registry.
Context {U : Unicode} {P : Platform}.

(** C6, as the code has it: a message that passes the test draws exactly
    one identifier and its card is stored under it.  Cards under other
    identifiers are untouched; an identifier that is not in the registry
    is added behind the existing cards, which are all kept; an identifier
    that is already there keeps its place and its card is replaced: a
    collision is neither detected nor retried. *)
Theorem create_stores_under_drawn_id (msg : Msg.t) (w : World) :
  is_giveaway (message_text msg) = true ->
  exists deadline,
    let w' := snd (handle_forward msg w) in
    let card := card_of msg deadline in
    fst (handle_forward msg w) = Ok tt
    /\ drawn w' = S (drawn w)
    /\ dict_get (next_gid w) (GIVEAWAYS w') = Some card
    /\ (forall k, k <> next_gid w -> dict_get k (GIVEAWAYS w') = dict_get k (GIVEAWAYS w))
    /\ (dict_get (next_gid w) (GIVEAWAYS w) = None ->
        GIVEAWAYS w' = GIVEAWAYS w ++ [(next_gid w, card)])
    /\ (dict_get (next_gid w) (GIVEAWAYS w) <> None ->
        map fst (GIVEAWAYS w') = map fst (GIVEAWAYS w)).
Proof.
  intros H. destruct (handle_forward_candidate msg w H) as (deadline & l & reply & _ & E).
  exists deadline. rewrite E. cbn [fst snd GIVEAWAYS drawn]. repeat split.
  - apply dict_get_set_same.
  - intros k Hk. now apply dict_get_set_other.
  - apply dict_set_fresh.
  - apply dict_set_keys.
Qed.

Lemma on_button_registry (q : callback_query) (w : World) :
  GIVEAWAYS (snd (on_button q w)) = GIVEAWAYS w
  \/ exists gid,
       GIVEAWAYS (snd (on_button q w)) = dict_update gid set_archived (GIVEAWAYS w).
Proof.
  unfold on_button. unfold bind at 1. unfold send at 1, modify at 1.
  destruct (startswith (lit "remind:") (data q)).
  - destruct (split colon (data q)) as [|a [|b [|c [|d l]]]]; auto.
    unfold bind, lift. destruct (py_int c) as [n|e]; auto.
    rewrite schedule_reminder_run.
    destruct (scheduled (emit Answer w) n); auto.
  - destruct (startswith (lit "archive:") (data q)); auto.
    destruct (split colon (data q)) as [|a [|b [|c l]]]; auto.
    unfold bind, gets, send, modify. cbn [GIVEAWAYS emit].
    destruct (dict_mem b (GIVEAWAYS w)); auto.
    right. now exists b.
Qed.

Lemma archived_survives_update gid k g d :
  dict_get k d = Some g -> archived g = true ->
  dict_get k (dict_update gid set_archived d) = Some g.
Proof.
  intros Hg Ha. destruct (str_eqb k gid) eqn:E.
  - apply str_eqb_eq in E. subst k.
    rewrite dict_get_update_same, Hg. simpl. now rewrite set_archived_fixed.
  - rewrite dict_get_update_other; auto.
    intros ->. now rewrite str_eqb_refl in E.
Qed.

Lemma archive_observed gid chat w :
  colon_free gid = true ->
  observed (on_button {| data := archive_token gid; message_chat_id := chat |}) w
  = (Ok tt, [Answer; archive_ack gid]).
Proof.
  intros Hc. unfold observed, sent_by. rewrite (on_button_archive gid chat w Hc).
  cbn [fst snd GIVEAWAYS outbox emit set_GIVEAWAYS]. f_equal.
  rewrite <- app_assoc, skipn_app, skipn_all, Nat.sub_diag. reflexivity.
Qed.

(** C7, as the code has it: the archive action on an identifier without a
    colon never raises; it sets [archived] on the card under that
    identifier and changes no other card, and it leaves the registry as it
    was when the identifier is unknown or the card is archived already.
    Its answer is the same acknowledgment in all these cases: whether
    anything changed is not reported.  No button, reminder or listing ever
    resets [archived]. *)
Theorem archive_action (gid : pystr) (chat : Z) (w : World) :
  colon_free gid = true ->
  let q := {| data := archive_token gid; message_chat_id := chat |} in
  let w' := snd (on_button q w) in
  observed (on_button q) w = (Ok tt, [Answer; archive_ack gid])
  /\ (forall g, dict_get gid (GIVEAWAYS w) = Some g ->
        dict_get gid (GIVEAWAYS w') = Some (set_archived g))
  /\ (forall k, k <> gid -> dict_get k (GIVEAWAYS w') = dict_get k (GIVEAWAYS w))
  /\ (gone gid w -> GIVEAWAYS w' = GIVEAWAYS w)
  /\ (forall q', never_reverts (on_button q'))
  /\ (forall c k, never_reverts (job c k))
  /\ never_reverts list_cmd.
Proof.
  intros Hc q w'. subst q w'. split; [now apply archive_observed|].
  rewrite (on_button_archive gid chat w Hc).
  cbn [fst snd GIVEAWAYS outbox emit set_GIVEAWAYS]. repeat split.
  - intros g Hg. now rewrite dict_get_update_same, Hg.
  - intros k Hk. now apply dict_get_update_other.
  - unfold gone. intros Hg. destruct (dict_get gid (GIVEAWAYS w)) as [g|] eqn:E.
    + apply dict_update_fixed. intros v Hv. rewrite E in Hv.
      inversion Hv; subst. now apply set_archived_fixed.
    + now apply dict_update_absent.
  - intros q' w0 k g Hg Ha.
    destruct (on_button_registry q' w0) as [E|(gid' & E)]; rewrite E; auto.
    now apply archived_survives_update.
  - intros c k w0 k0 g Hg Ha. unfold job, bind, gets.
    destruct (dict_get k (GIVEAWAYS w0)) as [g0|]; auto.
    destruct (archived g0); auto.
  - intros w0 k g Hg Ha. now rewrite list_cmd_run.
Qed.

(** C8, as the code has it: an action on an identifier that is not in the
    registry leaves the registry as it was and is answered as an action on
    a known identifier is: the archive action never raises and sends the
    ordinary acknowledgment; the remind action adds the job and sends the
    ordinary acknowledgment when [int] reads the minutes and the scheduler
    takes the run date, and raises what [int], the date arithmetic or the
    scheduler raised otherwise, after the answer to the query; the job will
    do nothing while the identifier stays unknown.  There is no
    "unknown id" answer: what the transport sees of an action does not
    depend on the registry. *)
Theorem unknown_id_action (gid mins : pystr) (chat : Z) (w : World) :
  colon_free gid = true -> colon_free mins = true ->
  dict_get gid (GIVEAWAYS w) = None ->
  let qa := {| data := archive_token gid; message_chat_id := chat |} in
  let qr := {| data := remind_token gid mins; message_chat_id := chat |} in
  let job_at d := {| job_chat_id := chat; job_gid := gid; run_date := d |} in
  on_button qa w = (Ok tt, emit (archive_ack gid) (emit Answer w))
  /\ on_button qr w
     = match py_int mins with
       | Ok n =>
           match scheduled w n with
           | Ok d =>
               (Ok tt, emit (remind_ack gid mins) (add_job (job_at d) (emit Answer w)))
           | Raise e => (Raise e, emit Answer w)
           end
       | Raise e => (Raise e, emit Answer w)
       end
  /\ GIVEAWAYS (snd (on_button qr w)) = GIVEAWAYS w
  /\ (forall d, fire (job_at d) (snd (on_button qr w)) = (Ok tt, snd (on_button qr w)))
  /\ (forall cards,
        observed (on_button qa) (set_GIVEAWAYS cards w) = observed (on_button qa) w
        /\ observed (on_button qr) (set_GIVEAWAYS cards w) = observed (on_button qr) w).
Proof.
  intros Hg Hm Habs qa qr job_at. subst qa qr job_at.
  assert (Ea : forall w0, observed
                 (on_button {| data := archive_token gid; message_chat_id := chat |}) w0
               = (Ok tt, [Answer; archive_ack gid])).
  { intros w0. now apply archive_observed. }
  pose proof (fun w0 => on_button_remind gid mins chat w0 Hg Hm) as Er.
  assert (Hreg : GIVEAWAYS
                   (snd (on_button {| data := remind_token gid mins;
                                      message_chat_id := chat |} w))
                 = GIVEAWAYS w).
  { rewrite Er. destruct (py_int mins) as [n|e]; [|reflexivity].
    destruct (scheduled w n); reflexivity. }
  split; [|split; [|split; [|split]]].
  - rewrite (on_button_archive gid chat w Hg), dict_update_absent by assumption.
    change (GIVEAWAYS w) with (GIVEAWAYS (emit Answer w)).
    now rewrite set_GIVEAWAYS_same.
  - apply Er.
  - exact Hreg.
  - intros d. unfold fire. cbn [job_chat_id job_gid]. apply job_gone.
    unfold gone. now rewrite Hreg, Habs.
  - intros cards. split; [now rewrite !Ea|].
    unfold observed, sent_by. rewrite (Er w), (Er (set_GIVEAWAYS cards w)).
    change (scheduled (set_GIVEAWAYS cards w)) with (scheduled w).
    destruct (py_int mins) as [n|e]; [|reflexivity].
    destruct (scheduled w n); reflexivity.
Qed.
End Registry.

(** ** The list of active cards *)

Section Listing.
Context {U : Unicode} {P : Platform}.

Lemma handle_forward_registry msg w :
  is_giveaway (message_text msg) = true ->
  exists deadline,
    GIVEAWAYS (snd (handle_forward msg w))
    = dict_set (gid_at (drawn w)) (card_of msg deadline) (GIVEAWAYS w)
    /\ drawn (snd (handle_forward msg w)) = S (drawn w).
Proof.
  intros H. destruct (handle_forward_candidate msg w H) as (deadline & l & reply & _ & E).
  exists deadline. rewrite E. split; reflexivity.
Qed.

Lemma three_creations w0 m1 m2 m3 :
  GIVEAWAYS w0 = [] ->
  is_giveaway (message_text m1) = true ->
  is_giveaway (message_text m2) = true ->
  is_giveaway (message_text m3) = true ->
  exists d1 d2 d3,
    GIVEAWAYS (snd (handle_forward m3 (snd (handle_forward m2 (snd (handle_forward m1 w0))))))
    = dict_set (gid_at (S (S (drawn w0)))) (card_of m3 d3)
        (dict_set (gid_at (S (drawn w0))) (card_of m2 d2)
           (dict_set (gid_at (drawn w0)) (card_of m1 d1) [])).
Proof.
  intros H0 C1 C2 C3.
  set (w1 := snd (handle_forward m1 w0)).
  set (w2 := snd (handle_forward m2 w1)).
  destruct (handle_forward_registry m1 w0 C1) as (d1 & E1 & D1).
  fold w1 in E1, D1. rewrite H0 in E1.
  destruct (handle_forward_registry m2 w1 C2) as (d2 & E2 & D2).
  fold w2 in E2, D2. rewrite D1 in E2, D2. rewrite E1 in E2.
  destruct (handle_forward_registry m3 w2 C3) as (d3 & E3 & _).
  rewrite D2, E2 in E3. now exists d1, d2, d3.
Qed.

Lemma collision_listing g1 g2 c1 c2 c3 :
  g2 <> g1 -> archived c2 = false -> archived c3 = false ->
  let registry := dict_set g1 c3 (dict_set g2 c2 (dict_set g1 c1 [])) in
  active_cards registry = [(g1, c3); (g2, c2)]
  /\ active_cards (dict_update g2 set_archived registry) = [(g1, c3)].
Proof.
  intros N A2 A3 registry. subst registry. cbn [dict_set].
  rewrite (str_eqb_neq N). cbn [dict_set]. rewrite str_eqb_refl.
  cbn [dict_update]. rewrite (str_eqb_neq N). cbn [dict_update]. rewrite str_eqb_refl.
  unfold active_cards. cbn [filter snd archived set_archived negb].
  rewrite A2, A3. cbn [negb]. split; reflexivity.
Qed.

(** C9, as the code has it: [list_cmd] shows the cards that are not
    archived, the first 20 of them, in the order of the registry: every
    card it shows is in the registry and not archived, and when at most 20
    cards are active it shows them all.  After three cards were created in
    an empty registry under three different identifiers, so that it holds
    three cards, and the second one was archived, it shows the first and
    the third, in this order.  When the third card drew the identifier of
    the first, the registry holds two cards, the third in the place of the
    first and so before the second; after the second was archived the list
    shows the third card alone. *)
Theorem list_cmd_active (w0 : World) (m1 m2 m3 : Msg.t) (chat : Z) :
  (forall w,
     let shown := firstn 20 (filter (fun e => negb (archived (snd e))) (GIVEAWAYS w)) in
     sent_by list_cmd w
     = [ReplyText match shown with
                  | [] => lit "Сейчас нет активных карточек."
                  | _ :: _ => lit "Активные:" ++ newline ++ join newline (map list_line shown)
                  end None]
     /\ (forall e, In e shown -> In e (GIVEAWAYS w) /\ archived (snd e) = false)
     /\ (length shown <= 20)%nat
     /\ ((length (active_cards (GIVEAWAYS w)) <= 20)%nat ->
         forall e, In e (GIVEAWAYS w) -> archived (snd e) = false -> In e shown))
  /\ (GIVEAWAYS w0 = [] ->
      is_giveaway (message_text m1) = true ->
      is_giveaway (message_text m2) = true ->
      is_giveaway (message_text m3) = true ->
      let w3 := snd (handle_forward m3 (snd (handle_forward m2 (snd (handle_forward m1 w0))))) in
      length (GIVEAWAYS w3) = 3%nat ->
      let g1 := gid_at (drawn w0) in
      let g2 := gid_at (S (drawn w0)) in
      let g3 := gid_at (S (S (drawn w0))) in
      let w4 := snd (on_button {| data := archive_token g2; message_chat_id := chat |} w3) in
      exists d1 d3,
        let r1 := (g1, card_of m1 d1) in
        let r3 := (g3, card_of m3 d3) in
        firstn 20 (active_cards (GIVEAWAYS w4)) = [r1; r3]
        /\ sent_by list_cmd w4
           = [ReplyText (lit "Активные:" ++ newline ++ list_line r1 ++ newline ++ list_line r3)
                None])
  /\ (GIVEAWAYS w0 = [] ->
      is_giveaway (message_text m1) = true ->
      is_giveaway (message_text m2) = true ->
      is_giveaway (message_text m3) = true ->
      let w3 := snd (handle_forward m3 (snd (handle_forward m2 (snd (handle_forward m1 w0))))) in
      let g1 := gid_at (drawn w0) in
      let g2 := gid_at (S (drawn w0)) in
      let g3 := gid_at (S (S (drawn w0))) in
      let w4 := snd (on_button {| data := archive_token g2; message_chat_id := chat |} w3) in
      g3 = g1 -> g2 <> g1 ->
      exists d2 d3,
        active_cards (GIVEAWAYS w3) = [(g1, card_of m3 d3); (g2, card_of m2 d2)]
        /\ active_cards (GIVEAWAYS w4) = [(g1, card_of m3 d3)]
        /\ sent_by list_cmd w4
           = [ReplyText (lit "Активные:" ++ newline ++ list_line (g1, card_of m3 d3)) None]).
Proof.
  split; [|split].
  - intros w shown. subst shown. fold (active_cards (GIVEAWAYS w)). repeat split.
    + erewrite sent_by_emit; [|apply list_cmd_run].
      destruct (active_cards (GIVEAWAYS w)) as [|e l].
      * change (firstn 20 (@nil (pystr * giveaway))) with (@nil (pystr * giveaway)).
        cbv iota. reflexivity.
      * change (firstn 20 (e :: l)) with (e :: firstn 19 l). cbv iota. reflexivity.
    + assert (I : In e (active_cards (GIVEAWAYS w))).
      { rewrite <- (firstn_skipn 20 (active_cards (GIVEAWAYS w))).
        apply in_or_app. now left. }
      apply filter_In in I. tauto.
    + assert (I : In e (active_cards (GIVEAWAYS w))).
      { rewrite <- (firstn_skipn 20 (active_cards (GIVEAWAYS w))).
        apply in_or_app. now left. }
      apply filter_In in I. destruct I as (_ & I). now destruct (archived (snd e)).
    + apply firstn_le_length.
    + intros Hl e He Ha. rewrite firstn_all2 by assumption.
      apply filter_In. split; auto. now rewrite Ha.
  - intros H0 C1 C2 C3 w3 H3 g1 g2 g3 w4.
    set (w1 := snd (handle_forward m1 w0)) in *.
    set (w2 := snd (handle_forward m2 w1)) in *.
    destruct (handle_forward_registry m1 w0 C1) as (d1 & E1 & D1).
    fold w1 in E1, D1. rewrite H0 in E1.
    destruct (handle_forward_registry m2 w1 C2) as (d2 & E2 & D2).
    fold w2 in E2, D2. rewrite D1 in E2, D2. rewrite E1 in E2.
    destruct (handle_forward_registry m3 w2 C3) as (d3 & E3 & _).
    fold w3 in E3. rewrite D2, E2 in E3. fold g1 g2 g3 in E3.
    (* three cards in the registry: the three identifiers differ *)
    assert (N : g1 <> g2 /\ g1 <> g3 /\ g2 <> g3).
    { rewrite E3 in H3. clear - H3. clearbody g1 g2 g3. cbn [dict_set] in H3.
      destruct (str_eqb g2 g1) eqn:B21; cbn [dict_set] in H3.
      - destruct (str_eqb g3 g1); simpl in H3; discriminate.
      - destruct (str_eqb g3 g1) eqn:B31; [simpl in H3; discriminate|].
        cbn [dict_set] in H3.
        destruct (str_eqb g3 g2) eqn:B32; [simpl in H3; discriminate|].
        repeat split; intros E; subst;
          rewrite str_eqb_refl in *; discriminate. }
    destruct N as (N12 & N13 & N23).
    assert (Hc : colon_free g2 = true) by apply gid_colon_free.
    assert (E4 : GIVEAWAYS w4
                 = dict_update g2 set_archived (GIVEAWAYS w3)).
    { subst w4. now rewrite (on_button_archive g2 chat w3 Hc). }
    clearbody w4 w3 g1 g2 g3. clear w1 w2 E1 E2 D1 D2 Hc.
    rewrite E3 in E4. cbn [dict_set dict_update] in E4.
    rewrite (str_eqb_neq (not_eq_sym N12)) in E4. cbn [dict_set dict_update] in E4.
    rewrite (str_eqb_neq (not_eq_sym N13)), (str_eqb_neq (not_eq_sym N23)) in E4.
    cbn [dict_set dict_update] in E4.
    rewrite (str_eqb_neq (not_eq_sym N12)), str_eqb_refl in E4.
    exists d1, d3. cbv zeta.
    assert (A : active_cards (GIVEAWAYS w4) = [(g1, card_of m1 d1); (g3, card_of m3 d3)]).
    { rewrite E4. unfold active_cards.
      cbn [filter snd archived card_of set_archived negb]. reflexivity. }
    split.
    + rewrite A. cbn [firstn]. reflexivity.
    + erewrite sent_by_emit; [|apply list_cmd_run]. rewrite A.
      cbn [firstn map join]. reflexivity.
  - intros H0 C1 C2 C3 w3 g1 g2 g3 w4 E31 N21.
    destruct (three_creations w0 m1 m2 m3 H0 C1 C2 C3) as (d1 & d2 & d3 & E3).
    fold w3 g1 g2 g3 in E3. rewrite E31 in E3.
    assert (Hc : colon_free g2 = true) by apply gid_colon_free.
    assert (E4 : GIVEAWAYS w4 = dict_update g2 set_archived (GIVEAWAYS w3)).
    { subst w4. now rewrite (on_button_archive g2 chat w3 Hc). }
    clearbody w4 w3 g1 g2 g3. clear Hc.
    destruct (@collision_listing g1 g2 (card_of m1 d1) (card_of m2 d2) (card_of m3 d3)
                N21 eq_refl eq_refl) as (A3 & A4).
    cbv zeta in A3, A4. rewrite <- E3 in A3, A4. rewrite <- E4 in A4.
    exists d2, d3. split; [exact A3|]. split; [exact A4|].
    erewrite sent_by_emit; [|apply list_cmd_run]. rewrite A4.
    cbn [firstn map join]. reflexivity.
Qed.
End Listing.

(** ** Runs on the concrete platform *)

Section Runs.
#[local] Existing Instance Basic.table.

Example classify_scenario :
  extract_links (Some (lit "Giveaway! Win Stars: https://t.me/x until 21:00"))
  = [lit "https://t.me/x"]
  /\ is_giveaway (lit "Giveaway! Win Stars: https://t.me/x until 21:00") = true
  /\ is_giveaway (lit "see HTTPS://T.ME/X") = true
  /\ is_giveaway (lit "gifted tons of starships") = false.
Proof. vm_compute. repeat split. Qed.

Lemma is_giveaway_iff_witness :
  contains_link (lit "see HTTPS://T.ME/X")
  /\ is_giveaway (lit "see HTTPS://T.ME/X") = true.
Proof.
  assert (H : contains_link (lit "see HTTPS://T.ME/X")).
  { exists (lit "see "), (lit "HTTPS://T.ME/X"). split; [reflexivity|].
    exists (lit "HTTPS://T.ME/X"), []. split; [reflexivity|].
    exists (lit "HTTPS"), (lit "T.ME/X"). split; [reflexivity|].
    split; [right; repeat (constructor; [reflexivity|]); constructor|].
    split; [discriminate|]. repeat (constructor; [reflexivity|]). constructor. }
  split; [exact H|]. exact (proj1 (proj2 (is_giveaway_iff _)) H).
Defined.

(** C4: at 19:00 the text "до 18:00" gives today 18:00, an hour in the
    past.  Step 1 parses the same time and drops it as not later than now;
    the hint step parses the captured "18:00" again and returns it without
    looking at the clock. *)
Theorem hint_deadline_in_the_past :
  let w := Demo.start_world in
  let r := extract_deadline (P := Demo.stuck) (Some (lit "до 18:00")) w in
  fst r = Ok (Some {| wall := Demo.evening - 60 * US_PER_MINUTE; tzinfo := None |})
  /\ attempts (snd r)
     = [ParseAttempt (lit "до 18:00"); SearchAttempt (lit "до 18:00");
        ParseAttempt (lit "18:00")]
  /\ general_parse (P := Demo.stuck) (lit "до 18:00") w = None
  /\ (Demo.evening - 60 * US_PER_MINUTE < clock w)%Z.
Proof. vm_compute. repeat split. Qed.

(** Two cards drawn with the same first four random bytes: the second takes
    the place of the first, and one identifier was drawn for each. *)
Lemma create_collision_overwrites :
  let w1 := snd (handle_forward (P := Demo.stuck) Demo.first_post Demo.start_world) in
  let w2 := snd (handle_forward (P := Demo.stuck) Demo.second_post w1) in
  map fst (GIVEAWAYS w1) = [Demo.deadbeef]
  /\ map (fun e => text (snd e)) (GIVEAWAYS w1) = [lit "giveaway one"]
  /\ map fst (GIVEAWAYS w2) = [Demo.deadbeef]
  /\ map (fun e => text (snd e)) (GIVEAWAYS w2) = [lit "giveaway two https://t.me/x"]
  /\ drawn w2 = 2%nat.
Proof. vm_compute. repeat split. Qed.

Lemma create_stores_under_drawn_id_witness :
  is_giveaway (message_text Demo.first_post) = true
  /\ exists card,
       dict_get Demo.deadbeef
         (GIVEAWAYS (snd (handle_forward (P := Demo.stuck) Demo.first_post Demo.start_world)))
       = Some card.
Proof.
  assert (H : is_giveaway (message_text Demo.first_post) = true)
    by (vm_compute; reflexivity).
  split; [exact H|].
  destruct (create_stores_under_drawn_id (P := Demo.stuck) Demo.first_post
              Demo.start_world H) as (deadline & _ & _ & E & _).
  exists (card_of Demo.first_post deadline). exact E.
Defined.

(** A card archived twice: the flag goes up at the first press, and both
    presses send the same answer, so no reading of what is sent tells the
    first from the second. *)
Lemma archive_twice_same_answer :
  let w1 := snd (handle_forward (P := Demo.stuck) Demo.first_post Demo.start_world) in
  let q := Demo.press (archive_token Demo.deadbeef) in
  let w2 := snd (on_button (P := Demo.stuck) q w1) in
  option_map archived (dict_get Demo.deadbeef (GIVEAWAYS w1)) = Some false
  /\ option_map archived (dict_get Demo.deadbeef (GIVEAWAYS w2)) = Some true
  /\ observed (on_button (P := Demo.stuck) q) w1
     = observed (on_button (P := Demo.stuck) q) w2
  /\ ~ (exists report : outcome unit * list output -> bool,
          report (observed (on_button (P := Demo.stuck) q) w1) = true
          /\ report (observed (on_button (P := Demo.stuck) q) w2) = false).
Proof.
  cbv zeta.
  assert (E : observed (on_button (P := Demo.stuck)
                          (Demo.press (archive_token Demo.deadbeef)))
                (snd (handle_forward (P := Demo.stuck) Demo.first_post Demo.start_world))
              = observed (on_button (P := Demo.stuck)
                            (Demo.press (archive_token Demo.deadbeef)))
                  (snd (on_button (P := Demo.stuck)
                          (Demo.press (archive_token Demo.deadbeef))
                          (snd (handle_forward (P := Demo.stuck) Demo.first_post
                                  Demo.start_world)))))
    by (vm_compute; reflexivity).
  split; [vm_compute; reflexivity|]. split; [vm_compute; reflexivity|].
  split; [exact E|].
  intros (report & H1 & H2). rewrite E in H1. congruence.
Qed.

Lemma archive_action_witness :
  colon_free Demo.deadbeef = true
  /\ observed (on_button (P := Demo.stuck) (Demo.press (archive_token Demo.deadbeef)))
       Demo.start_world
     = (Ok tt, [Answer; archive_ack Demo.deadbeef]).
Proof.
  split; [reflexivity|].
  apply (archive_action (P := Demo.stuck) Demo.deadbeef 5 Demo.start_world eq_refl).
Defined.

(** The same button pressed for a card that exists and in an empty
    registry: the answers are the same, for archive and for remind. *)
Lemma unknown_id_answer_as_known :
  let known := snd (handle_forward (P := Demo.stuck) Demo.first_post Demo.start_world) in
  let unknown := Demo.start_world in
  let qa := Demo.press (archive_token Demo.deadbeef) in
  let qr := Demo.press (remind_token Demo.deadbeef (lit "10")) in
  dict_mem Demo.deadbeef (GIVEAWAYS known) = true
  /\ dict_mem Demo.deadbeef (GIVEAWAYS unknown) = false
  /\ observed (on_button (P := Demo.stuck) qa) unknown
     = observed (on_button (P := Demo.stuck) qa) known
  /\ observed (on_button (P := Demo.stuck) qr) unknown
     = observed (on_button (P := Demo.stuck) qr) known
  /\ ~ (exists unknown_id_answer : outcome unit * list output -> bool,
          unknown_id_answer (observed (on_button (P := Demo.stuck) qa) unknown) = true
          /\ unknown_id_answer (observed (on_button (P := Demo.stuck) qa) known) = false).
Proof.
  cbv zeta.
  assert (E : observed (on_button (P := Demo.stuck)
                          (Demo.press (archive_token Demo.deadbeef))) Demo.start_world
              = observed (on_button (P := Demo.stuck)
                            (Demo.press (archive_token Demo.deadbeef)))
                  (snd (handle_forward (P := Demo.stuck) Demo.first_post
                          Demo.start_world)))
    by (vm_compute; reflexivity).
  split; [vm_compute; reflexivity|]. split; [vm_compute; reflexivity|].
  split; [exact E|]. split; [vm_compute; reflexivity|].
  intros (f & H1 & H2). rewrite E in H1. congruence.
Qed.

Lemma unknown_id_action_witness :
  dict_get Demo.deadbeef (GIVEAWAYS Demo.start_world) = None
  /\ sent_by (on_button (P := Demo.stuck)
                (Demo.press (remind_token Demo.deadbeef (lit "10")))) Demo.start_world
     = [Answer; remind_ack Demo.deadbeef (lit "10")].
Proof.
  split; [reflexivity|].
  destruct (@unknown_id_action Demo.stuck Demo.deadbeef (lit "10") 5
              Demo.start_world eq_refl eq_refl eq_refl)
    as (_ & E & _).
  unfold sent_by, Demo.press. cbv zeta in E. rewrite E. vm_compute. reflexivity.
Defined.

Lemma reminder_checks_when_fired_witness :
  let w1 := snd (schedule_reminder (P := Demo.stuck) 5 Demo.deadbeef 10 Demo.start_world) in
  schedule_reminder (P := Demo.stuck) 5 Demo.deadbeef 10 Demo.start_world = (Ok tt, w1)
  /\ exists j, jobs w1 = [j] /\ fire j w1 = (Ok tt, w1).
Proof.
  cbv zeta.
  assert (H : schedule_reminder (P := Demo.stuck) 5 Demo.deadbeef 10 Demo.start_world
              = (Ok tt, snd (schedule_reminder (P := Demo.stuck) 5 Demo.deadbeef 10
                               Demo.start_world)))
    by (vm_compute; reflexivity).
  split; [exact H|].
  destruct (@reminder_checks_when_fired Demo.stuck 5 Demo.deadbeef 10
              Demo.start_world _ H) as (j & Hj & _ & _ & _ & _ & Hgone & _).
  exists j. split; [exact Hj|]. apply Hgone. vm_compute. exact I.
Defined.

(** The scenario of the reminder: a card is created, a reminder is set, the
    card is archived, the job fires: nothing is sent. *)
Example archived_before_fire :
  let w1 := snd (handle_forward (P := Demo.stuck) Demo.first_post Demo.start_world) in
  let w2 := snd (on_button (P := Demo.stuck)
                   (Demo.press (remind_token Demo.deadbeef (lit "10"))) w1) in
  let w3 := snd (on_button (P := Demo.stuck)
                   (Demo.press (archive_token Demo.deadbeef)) w2) in
  map (fun j => fire j w3) (jobs w3) = [(Ok tt, w3)]
  /\ map (fun j => sent_by (fire j) w2) (jobs w2)
     = [[SendMessage 5 (lit "⏰ Напоминание по розыгрышу deadbeef")
           (build_buttons [] Demo.deadbeef None)]].
Proof. vm_compute. repeat split. Qed.

(** Three cards created, the third drawing the identifier of the first:
    the registry holds two cards, the third in the place of the first and
    so before the second, which is older; after the second is archived the
    list shows the third card alone. *)
Lemma list_cmd_after_collision :
  let w1 := snd (handle_forward (P := Demo.colliding) Demo.first_post Demo.start_world) in
  let w2 := snd (handle_forward (P := Demo.colliding) Demo.second_post w1) in
  let w3 := snd (handle_forward (P := Demo.colliding) Demo.third_post w2) in
  let w4 := snd (on_button (P := Demo.colliding)
                   (Demo.press (archive_token (lit "00000002"))) w3) in
  let shown w := map (fun e => (fst e, text (snd e)))
                   (firstn 20 (active_cards (GIVEAWAYS w))) in
  shown w2 = [(Demo.deadbeef, lit "giveaway one");
              (lit "00000002", lit "giveaway two https://t.me/x")]
  /\ shown w3 = [(Demo.deadbeef, lit "Stars: до 21:00");
                 (lit "00000002", lit "giveaway two https://t.me/x")]
  /\ shown w4 = [(Demo.deadbeef, lit "Stars: до 21:00")]
  /\ drawn w4 = 3%nat.
Proof. vm_compute. repeat split. Qed.

Lemma list_cmd_active_witness :
  let w3 := snd (handle_forward (P := Demo.counting) Demo.third_post
              (snd (handle_forward (P := Demo.counting) Demo.second_post
                 (snd (handle_forward (P := Demo.counting) Demo.first_post
                    Demo.start_world))))) in
  let w4 := snd (on_button (P := Demo.counting)
                   (Demo.press (archive_token (lit "00000002"))) w3) in
  map fst (firstn 20 (active_cards (GIVEAWAYS w4))) = [lit "00000001"; lit "00000003"].
Proof.
  cbv zeta.
  destruct (proj1 (proj2 (list_cmd_active (P := Demo.counting) Demo.start_world
                            Demo.first_post Demo.second_post Demo.third_post 5)))
    as (d1 & d3 & E & _).
  - reflexivity.
  - vm_compute; reflexivity.
  - vm_compute; reflexivity.
  - vm_compute; reflexivity.
  - vm_compute; reflexivity.
  - cbv zeta in E.
    change (gid_at (P := Demo.counting) (S (drawn Demo.start_world)))
      with (lit "00000002") in E.
    unfold Demo.press. rewrite E. reflexivity.
Defined.

Lemma extract_deadline_general_parse_witness :
  extract_deadline (P := Demo.stuck) (Some (lit "до 21:00")) Demo.start_world
  = (Ok (Some {| wall := Demo.evening + 120 * US_PER_MINUTE; tzinfo := None |}),
     log_attempt (ParseAttempt (lit "до 21:00")) Demo.start_world).
Proof.
  exact (proj1 (extract_deadline_general_parse (P := Demo.stuck)
                  (chr "д") (lit "о 21:00") Demo.start_world) _ eq_refl).
Defined.
End Runs.


(** * More of the code *)

(** ** The keyboard *)

Section Keyboard.

Lemma url_rows (label : pystr) (urls : list pystr) :
  button_urls (map (fun url => [UrlButton label url]) urls) = urls
  /\ button_tokens (map (fun url => [UrlButton label url]) urls) = [].
Proof.
  unfold button_urls, button_tokens.
  induction urls as [|u urls (IH1 & IH2)]; simpl; [auto|]. now rewrite IH1, IH2.
Qed.

Lemma remind_token_lit gid :
  lit "remind:" ++ gid ++ lit ":10" = remind_token gid (lit "10")
  /\ lit "remind:" ++ gid ++ lit ":60" = remind_token gid (lit "60").
Proof. split; reflexivity. Qed.

(** X1: the keyboard of a card, row by row.  Row [i] holds one button, the
    link button of the [i]-th link, for each of the first four links;
    behind these rows comes the row with the two reminder buttons, ten
    minutes first, and last the row with the archive button alone.  There
    are no other rows: a fifth and later link gets no button.  The deadline
    plays no part. *)
Theorem build_buttons_rows (links : list pystr) (gid : pystr) (deadline : option datetime) :
  let keyboard := build_buttons links gid deadline in
  let n := Nat.min 4 (length links) in
  length keyboard = (n + 2)%nat
  /\ (forall i, (i < n)%nat ->
        exists url,
          nth_error links i = Some url
          /\ nth_error keyboard i = Some [UrlButton (lit "Открыть ссылку") url])
  /\ nth_error keyboard n
     = Some [CallbackButton (lit "Напомнить за 10 мин") (remind_token gid (lit "10"));
             CallbackButton (lit "за 1 час") (remind_token gid (lit "60"))]
  /\ nth_error keyboard (S n)
     = Some [CallbackButton (lit "В архив") (archive_token gid)]
  /\ keyboard = build_buttons links gid None.
Proof.
  intros keyboard n. subst keyboard n. unfold build_buttons.
  destruct (remind_token_lit gid) as (-> & ->). fold (archive_token gid).
  set (row := fun url : pystr => [UrlButton (lit "Открыть ссылку") url]).
  assert (L : length (map row (firstn 4 links)) = Nat.min 4 (length links))
    by now rewrite length_map, length_firstn.
  split; [|split; [|split; [|split]]].
  - rewrite length_app, L. reflexivity.
  - intros i Hi.
    destruct (nth_error links i) as [url|] eqn:E.
    + exists url. split; [reflexivity|].
      rewrite nth_error_app1 by (rewrite L; exact Hi).
      rewrite nth_error_map, nth_error_firstn.
      destruct (Nat.ltb_spec i 4) as [_|H4]; [|lia]. now rewrite E.
    + apply nth_error_None in E. lia.
  - rewrite nth_error_app2 by (rewrite L; lia). rewrite L, Nat.sub_diag. reflexivity.
  - rewrite nth_error_app2 by (rewrite L; lia). rewrite L.
    replace (S (Nat.min 4 (length links)) - Nat.min 4 (length links))%nat with 1%nat by lia.
    reflexivity.
  - reflexivity.
Qed.
End Keyboard.

(** ** Identifiers *)

Section Identifiers.
Context {P : Platform}.

Lemma hex_digit_hex d : (d < 16)%N -> is_hex (hex_digit d) = true.
Proof.
  intros H. unfold is_hex, hex_digit.
  destruct (N.ltb_spec d 10);
    repeat match goal with
           | |- context [(?a <=? ?b)%N] => destruct (N.leb_spec a b)
           end; simpl; auto; lia.
Qed.

Lemma hex_digit_inj x y :
  (x < 16)%N -> (y < 16)%N -> hex_digit x = hex_digit y -> x = y.
Proof.
  unfold hex_digit. intros Hx Hy.
  destruct (N.ltb_spec x 10), (N.ltb_spec y 10); lia.
Qed.

Lemma hex_digits_hex len : forall n, forallb is_hex (hex_digits len n) = true.
Proof.
  induction len as [|len IH]; intros n; simpl; auto.
  rewrite forallb_app, IH. simpl. rewrite hex_digit_hex; auto.
  apply N.mod_lt. discriminate.
Qed.

(** The digits of [n] written with [len] digits tell [n] up to [16 ^ len]. *)
Lemma hex_digits_inj len :
  forall x y,
    hex_digits len x = hex_digits len y
    <-> (x mod 16 ^ N.of_nat len = y mod 16 ^ N.of_nat len)%N.
Proof.
  induction len as [|len IH]; intros x y.
  - simpl. rewrite !N.mod_1_r. tauto.
  - cbn [hex_digits]. rewrite Nat2N.inj_succ, N.pow_succ_r', !N.Div0.mod_mul_r.
    assert (Hx : (x mod 16 < 16)%N) by (apply N.mod_lt; discriminate).
    assert (Hy : (y mod 16 < 16)%N) by (apply N.mod_lt; discriminate).
    split.
    + intros E. apply app_inj_tail in E as (E1 & E2).
      apply IH in E1. apply hex_digit_inj in E2; auto. now rewrite E1, E2.
    + intros E.
      assert (E12 : (x mod 16 = y mod 16
                     /\ (x / 16) mod 16 ^ N.of_nat len
                        = (y / 16) mod 16 ^ N.of_nat len)%N).
      { revert E Hx Hy.
        generalize (x mod 16)%N (y mod 16)%N ((x / 16) mod 16 ^ N.of_nat len)%N
                   ((y / 16) mod 16 ^ N.of_nat len)%N.
        intros a a' b b' E Ha Ha'. lia. }
      destruct E12 as (E2 & E1).
      apply IH in E1. now rewrite E1, E2.
Qed.

Lemma firstn_hex_digits k : forall len n,
  firstn len (hex_digits (len + k) n) = hex_digits len (n / 16 ^ N.of_nat k)%N.
Proof.
  induction k as [|k IH]; intros len n.
  - rewrite Nat.add_0_r. simpl N.of_nat. rewrite N.pow_0_r, N.div_1_r.
    rewrite <- (hex_digits_length len n) at 1. apply firstn_all.
  - rewrite Nat.add_succ_r. cbn [hex_digits].
    rewrite firstn_app, hex_digits_length.
    replace (len - (len + k))%nat with 0%nat by lia.
    rewrite firstn_O, app_nil_r, IH.
    rewrite Nat2N.inj_succ, N.pow_succ_r', N.Div0.div_div. reflexivity.
Qed.

Lemma gid_digits i : firstn 8 (str_uuid i) = hex_digits 8 (i / 16 ^ 24)%N.
Proof.
  unfold str_uuid. rewrite firstn_app, firstn_firstn, length_firstn, hex_digits_length.
  cbn [Nat.min Nat.sub Nat.leb]. rewrite firstn_O, app_nil_r.
  apply (firstn_hex_digits 24 8).
Qed.

(** Forcing the version and the variant leaves the first four bytes alone. *)
Lemma uuid4_int_top r : (uuid4_int r / 2 ^ 96 = (r / 2 ^ 96) mod 2 ^ 32)%N.
Proof.
  unfold uuid4_int. rewrite <- N.shiftr_div_pow2.
  rewrite N.shiftr_lor, N.shiftr_ldiff, N.shiftr_lor, N.shiftr_ldiff.
  change (N.shiftr (N.shiftl 49152 48) 96) with 0%N.
  change (N.shiftr (N.shiftl 32768 48) 96) with 0%N.
  change (N.shiftr (N.shiftl 61440 64) 96) with 0%N.
  change (N.shiftr (N.shiftl 4 76) 96) with 0%N.
  rewrite !N.ldiff_0_r, !N.lor_0_r, N.shiftr_div_pow2.
  change (2 ^ 128)%N with (2 ^ 96 * 2 ^ 32)%N.
  rewrite N.Div0.mod_mul_r.
  rewrite N.mul_comm, N.div_add by discriminate.
  rewrite N.div_small by (apply N.mod_lt; discriminate). reflexivity.
Qed.

Lemma gid_at_digits n :
  gid_at n = hex_digits 8 ((urandom16 n / 2 ^ 96) mod 2 ^ 32)%N.
Proof.
  unfold gid_at. rewrite gid_digits.
  change (16 ^ 24)%N with (2 ^ 96)%N. now rewrite uuid4_int_top.
Qed.

Lemma gid_length n : length (gid_at n) = 8%nat.
Proof. rewrite gid_at_digits. apply hex_digits_length. Qed.

Lemma gid_hex n : forallb is_hex (gid_at n) = true.
Proof. rewrite gid_at_digits. apply hex_digits_hex. Qed.

(** X2: an identifier is made of eight lower-case hexadecimal digits, so it
    holds no colon, and it shows the first four of the sixteen random bytes:
    two cards get the same identifier exactly when their random numbers
    begin with the same four bytes. *)
Theorem gid_shape (n m : nat) :
  length (gid_at n) = 8%nat
  /\ forallb is_hex (gid_at n) = true
  /\ colon_free (gid_at n) = true
  /\ (gid_at n = gid_at m <->
      ((urandom16 n / 2 ^ 96) mod 2 ^ 32 = (urandom16 m / 2 ^ 96) mod 2 ^ 32)%N).
Proof.
  split; [apply gid_length|]. split; [apply gid_hex|].
  split; [apply gid_colon_free|].
  rewrite !gid_at_digits, (hex_digits_inj 8).
  change (16 ^ N.of_nat 8)%N with (2 ^ 32)%N.
  now rewrite !N.Div0.mod_mod.
Qed.
End Identifiers.

(** ** Buttons and reminders *)

Section Buttons.
Context {P : Platform}.

Lemma split_length s : length (split colon s) = S (colons s).
Proof.
  unfold colons. induction s as [|c s IH]; simpl; auto.
  unfold char_eqb. destruct (N.eqb_spec c colon) as [->|Hc].
  - destruct (N.eq_dec colon colon); [|congruence]. simpl. now rewrite IH.
  - destruct (N.eq_dec c colon); [congruence|].
    destruct (split colon s) as [|piece pieces]; simpl in *; [discriminate|exact IH].
Qed.

Lemma when_of_in_range w m :
  (0 <= clock w + local_utcoffset < MAXWALL)%Z ->
  (0 <= clock w + local_utcoffset + m * US_PER_MINUTE < MAXWALL)%Z ->
  when_of w m
  = Ok {| wall := clock w + local_utcoffset + m * US_PER_MINUTE; tzinfo := None |}.
Proof.
  intros Hnow Hthen. unfold when_of, timedelta_minutes, datetime_add. cbn [wall tzinfo].
  unfold MAXWALL, US_PER_MINUTE, US_PER_DAY in *.
  destruct (Z.leb_spec (Z.abs (m * 60000000 / 86400000000)) 999999999) as [_|H].
  2:{ pose proof (Z.div_mod (m * 60000000) 86400000000 ltac:(lia)) as D.
      pose proof (Z.mod_pos_bound (m * 60000000) 86400000000 ltac:(lia)) as B.
      revert H D B. generalize (m * 60000000 / 86400000000)%Z
                               ((m * 60000000) mod 86400000000)%Z.
      intros q r H D B. lia. }
  destruct (Z.leb_spec 0 (clock w + local_utcoffset + m * 60000000)); [|lia].
  destruct (Z.ltb_spec (clock w + local_utcoffset + m * 60000000) 315537897600000000);
    [reflexivity|lia].
Qed.

Lemma when_of_out_of_range w m :
  ~ (0 <= clock w + local_utcoffset + m * US_PER_MINUTE < MAXWALL)%Z ->
  when_of w m = Raise OverflowError.
Proof.
  intros Hthen. unfold when_of, timedelta_minutes, datetime_add. cbn [wall tzinfo].
  unfold MAXWALL, US_PER_MINUTE, US_PER_DAY in *.
  destruct (Z.abs (m * 60000000 / 86400000000) <=? 999999999)%Z; [|reflexivity].
  destruct (Z.leb_spec 0 (clock w + local_utcoffset + m * 60000000)); [|reflexivity].
  destruct (Z.ltb_spec (clock w + local_utcoffset + m * 60000000) 315537897600000000);
    [lia|reflexivity].
Qed.

Lemma scheduled_in_range w m :
  (0 <= clock w + local_utcoffset < MAXWALL)%Z ->
  (0 <= clock w + local_utcoffset + m * US_PER_MINUTE < MAXWALL)%Z ->
  let when := {| wall := clock w + local_utcoffset + m * US_PER_MINUTE; tzinfo := None |} in
  scheduled w m
  = match scheduler_add_job SCHEDULER_TIMEZONE (clock w) when with
    | Ok _ => Ok when
    | Raise e => Raise e
    end.
Proof. intros Hnow Hthen when. unfold scheduled. now rewrite when_of_in_range. Qed.

Lemma scheduled_out_of_range w m :
  ~ (0 <= clock w + local_utcoffset + m * US_PER_MINUTE < MAXWALL)%Z ->
  scheduled w m = Raise OverflowError.
Proof. intros Hthen. unfold scheduled. now rewrite when_of_out_of_range. Qed.

(** X3: while the clock shows a date between the years 1 and 9999,
    [schedule_reminder] takes any number of minutes, zero and negative ones
    too.  When now plus the minutes is again such a date, it hands this run
    date, a naive one, to the scheduler of the zone Europe/Kyiv: if the
    scheduler takes it, one job with this run date is added and nothing
    else changes; if the scheduler raises, so does [schedule_reminder], and
    no job is added.  Otherwise it raises [OverflowError], and the
    scheduler is not asked. *)
Theorem schedule_reminder_range (chat : Z) (gid : pystr) (m : Z) (w : World) :
  (0 <= clock w + local_utcoffset < MAXWALL)%Z ->
  let target := (clock w + local_utcoffset + m * US_PER_MINUTE)%Z in
  let when := {| wall := target; tzinfo := None |} in
  ((0 <= target < MAXWALL)%Z ->
   schedule_reminder chat gid m w
   = match scheduler_add_job SCHEDULER_TIMEZONE (clock w) when with
     | Ok _ => (Ok tt, add_job {| job_chat_id := chat; job_gid := gid;
                                  run_date := when |} w)
     | Raise e => (Raise e, w)
     end)
  /\ (~ (0 <= target < MAXWALL)%Z ->
      schedule_reminder chat gid m w = (Raise OverflowError, w)).
Proof.
  intros Hnow target when. subst target when.
  split; intros H; rewrite schedule_reminder_run.
  - rewrite scheduled_in_range by assumption. cbv zeta.
    destruct (scheduler_add_job _ _ _); reflexivity.
  - now rewrite scheduled_out_of_range.
Qed.

(** X4: what [on_button] does with a token it cannot read.  It always
    answers the query first.  A token that begins with neither prefix
    ends there.  A token that begins with [remind:] and does not hold
    exactly two colons, or with [archive:] and not exactly one, raises
    [ValueError]; minutes that [int] refuses raise what [int] raised.  In
    all these cases nothing but the answer is sent, no job is added and the
    registry is untouched. *)
Theorem on_button_unreadable (q : callback_query) (w : World) :
  (startswith (lit "remind:") (data q) = false ->
   startswith (lit "archive:") (data q) = false ->
   on_button q w = (Ok tt, emit Answer w))
  /\ (startswith (lit "remind:") (data q) = true -> colons (data q) <> 2%nat ->
      on_button q w = (Raise ValueError, emit Answer w))
  /\ (startswith (lit "remind:") (data q) = false ->
      startswith (lit "archive:") (data q) = true -> colons (data q) <> 1%nat ->
      on_button q w = (Raise ValueError, emit Answer w))
  /\ (forall gid mins e,
        data q = remind_token gid mins ->
        colon_free gid = true -> colon_free mins = true ->
        py_int mins = Raise e ->
        on_button q w = (Raise e, emit Answer w)).
Proof.
  pose proof (split_length (data q)) as L.
  repeat split.
  - intros H1 H2. unfold on_button, bind. unfold send at 1, modify at 1.
    now rewrite H1, H2.
  - intros H1 Hc. unfold on_button, bind. unfold send at 1, modify at 1. rewrite H1.
    destruct (split colon (data q)) as [|a [|b [|c [|d l]]]]; simpl in L;
      try reflexivity. congruence.
  - intros H1 H2 Hc. unfold on_button, bind. unfold send at 1, modify at 1.
    rewrite H1, H2.
    destruct (split colon (data q)) as [|a [|b [|c l]]]; simpl in L;
      try reflexivity. congruence.
  - intros gid mins e Hd Hg Hm Hi. destruct q as [d chat]. simpl in Hd. subst d.
    rewrite (on_button_remind gid mins chat w Hg Hm). now rewrite Hi.
Qed.

(** X5: every button of a card's keyboard is understood.  For a generated
    identifier, where [int] reads "10" and "60" and now plus an hour is
    still a date, pressing a reminder button hands the scheduler a job for
    that identifier ten or sixty minutes from now: the job is added and
    acknowledged when the scheduler takes the run date, and what the
    scheduler raised is raised when it does not; pressing the archive
    button archives the card under the identifier. *)
Theorem buttons_are_understood
    (n : nat) (links : list pystr) (deadline : option datetime) (chat : Z) (w : World) :
  py_int (lit "10") = Ok 10%Z -> py_int (lit "60") = Ok 60%Z ->
  (0 <= clock w + local_utcoffset)%Z ->
  (clock w + local_utcoffset + 60 * US_PER_MINUTE < MAXWALL)%Z ->
  let gid := gid_at n in
  let job_in m :=
    {| job_chat_id := chat; job_gid := gid;
       run_date := {| wall := clock w + local_utcoffset + m * US_PER_MINUTE;
                      tzinfo := None |} |}%Z in
  let pressed mins m :=
    match scheduler_add_job SCHEDULER_TIMEZONE (clock w) (run_date (job_in m)) with
    | Ok _ => (Ok tt, emit (remind_ack gid mins) (add_job (job_in m) (emit Answer w)))
    | Raise e => (Raise e, emit Answer w)
    end in
  exists t10 t60 ta,
    button_tokens (build_buttons links gid deadline) = [t10; t60; ta]
    /\ on_button {| data := t10; message_chat_id := chat |} w = pressed (lit "10") 10%Z
    /\ on_button {| data := t60; message_chat_id := chat |} w = pressed (lit "60") 60%Z
    /\ on_button {| data := ta; message_chat_id := chat |} w
       = (Ok tt, emit (archive_ack gid)
                   (set_GIVEAWAYS (dict_update gid set_archived (GIVEAWAYS w))
                      (emit Answer w))).
Proof.
  intros H10 H60 Hlo Hhi gid job_in pressed. subst job_in pressed.
  pose proof (gid_colon_free (uuid4_int (urandom16 n))) as Hc. fold (gid_at n) in Hc.
  fold gid in Hc. clearbody gid.
  exists (remind_token gid (lit "10")), (remind_token gid (lit "60")), (archive_token gid).
  assert (Hnow : (0 <= clock w + local_utcoffset < MAXWALL)%Z)
    by (unfold MAXWALL, US_PER_MINUTE in *; lia).
  split; [|split; [|split]].
  - unfold build_buttons, button_tokens. rewrite flat_map_app.
    fold (button_tokens (map (fun url => [UrlButton (lit "Открыть ссылку") url])
                           (firstn 4 links))).
    rewrite (proj2 (url_rows _ _)). cbn [flat_map button_token app].
    destruct (remind_token_lit gid) as (-> & ->). reflexivity.
  - rewrite (on_button_remind gid (lit "10") chat w Hc eq_refl), H10.
    rewrite scheduled_in_range by (unfold MAXWALL, US_PER_MINUTE in *; lia).
    cbv beta zeta. cbn [run_date]. destruct (scheduler_add_job _ _ _); reflexivity.
  - rewrite (on_button_remind gid (lit "60") chat w Hc eq_refl), H60.
    rewrite scheduled_in_range by (unfold MAXWALL, US_PER_MINUTE in *; lia).
    cbv beta zeta. cbn [run_date]. destruct (scheduler_add_job _ _ _); reflexivity.
  - apply on_button_archive, Hc.
Qed.
End Buttons.

(** ** Posts that are turned away, and cards that are kept *)

Section Cards.
Context {U : Unicode} {P : Platform}.

Lemma no_keyword_in_empty : ~ has_keyword [].
Proof.
  intros (w & Hin & pre & post & E & _). symmetry in E.
  apply app_eq_nil in E as (_ & E). apply app_eq_nil in E as (E & _). subst w.
  simpl in Hin.
  repeat match goal with H : _ \/ _ |- _ => destruct H as [H|H] end;
    try discriminate; contradiction.
Qed.

Lemma no_link_in_empty : ~ contains_link [].
Proof.
  intros (pre & s & E & u & rest & -> & Hu). symmetry in E.
  apply app_eq_nil in E as (_ & E). apply app_eq_nil in E as (E & _).
  now apply UrlMatch_nonempty in Hu.
Qed.

Lemma is_giveaway_spec t :
  is_giveaway t = true <-> has_keyword (str_lower t) \/ contains_link t.
Proof.
  unfold is_giveaway. rewrite orb_true_iff, matches_keywords_iff, <- extract_links_nonempty.
  destruct (extract_links (Some t)); simpl; split; intros [H|H]; auto;
    try discriminate; right; congruence.
Qed.

(** X6: a post in which no keyword stands as a word and which holds no
    link, and so every post without text and caption, is turned away:
    [handle_forward] sends the refusal and nothing else happens: no
    identifier is drawn, no deadline is looked for, and the registry stays
    as it was. *)
Theorem handle_forward_turns_away (msg : Msg.t) (w : World) :
  (~ has_keyword (str_lower (message_text msg)) /\ ~ contains_link (message_text msg))
  \/ (truthy (Msg.text msg) = false /\ truthy (Msg.caption msg) = false) ->
  handle_forward msg w
  = (Ok tt,
     emit (ReplyText
             (lit "Не похоже на розыгрыш. Если всё же он — пришли сообщение с ссылкой/условиями.")
             None) w).
Proof.
  intros H. apply handle_forward_rejected. apply not_true_is_false. intros G.
  apply is_giveaway_spec in G. destruct H as [(Hk & Hl)|(Ht & Hc)]; [tauto|].
  assert (E : message_text msg = []).
  { unfold message_text, or_else. now rewrite Ht, Hc. }
  rewrite E, str_lower_empty in G. destruct G as [G|G].
  - now apply no_keyword_in_empty.
  - now apply no_link_in_empty.
Qed.

(** X7: the reminder for a card that was just created carries the keyboard
    of the card's first message: the same link buttons, reminder buttons
    and archive button. *)
Theorem reminder_repeats_keyboard (msg : Msg.t) (chat : Z) (w : World) :
  is_giveaway (message_text msg) = true ->
  let w1 := snd (handle_forward msg w) in
  exists title keyboard,
    sent_by (handle_forward msg) w = [ReplyText title (Some keyboard)]
    /\ sent_by (job chat (next_gid w)) w1
       = [SendMessage chat (lit "⏰ Напоминание по розыгрышу " ++ next_gid w) keyboard].
Proof.
  intros H w1. subst w1.
  destruct (handle_forward_candidate msg w H) as (dl & l & reply & _ & E).
  exists reply, (build_buttons (extract_links (Some (message_text msg))) (next_gid w) dl).
  split.
  - unfold sent_by. rewrite E. cbn [snd outbox].
    rewrite skipn_app, skipn_all, Nat.sub_diag. reflexivity.
  - rewrite E. cbn [snd].
    match goal with |- sent_by _ ?w1 = _ =>
      assert (J : job chat (next_gid w) w1
                  = (Ok tt, emit (SendMessage chat
                                    (lit "⏰ Напоминание по розыгрышу " ++ next_gid w)
                                    (build_buttons (links (card_of msg dl)) (next_gid w)
                                       (deadline (card_of msg dl)))) w1))
    end.
    { apply job_live; [|reflexivity]. cbn [GIVEAWAYS]. apply dict_get_set_same. }
    rewrite (sent_by_emit _ J). reflexivity.
Qed.

Lemma active_without d gid :
  ~ In gid (map fst d) ->
  filter (fun e : pystr * giveaway => negb (str_eqb (fst e) gid)) (active_cards d)
  = active_cards d.
Proof.
  induction d as [|[k g] d IH]; intros Hn; simpl; auto.
  simpl in Hn. destruct (archived g); simpl.
  - apply IH. tauto.
  - rewrite str_eqb_neq by tauto. simpl. f_equal. apply IH. tauto.
Qed.

Lemma active_after_archive d gid :
  NoDup (map fst d) ->
  active_cards (dict_update gid set_archived d)
  = filter (fun e => negb (str_eqb (fst e) gid)) (active_cards d).
Proof.
  induction d as [|[k g] d IH]; intros Hn; simpl; auto.
  inversion Hn as [|? ? Hk Hd]; subst.
  destruct (str_eqb gid k) eqn:E.
  - apply str_eqb_eq in E. subst k. simpl.
    fold (active_cards d). destruct (archived g); simpl.
    + now rewrite active_without.
    + rewrite str_eqb_refl. simpl. now rewrite active_without.
  - simpl. fold (active_cards (dict_update gid set_archived d)). rewrite IH by assumption.
    fold (active_cards d). destruct (archived g); simpl; auto.
    assert (E' : str_eqb k gid = false).
    { apply str_eqb_neq. intros ->. now rewrite str_eqb_refl in E. }
    now rewrite E'.
Qed.

(** X8: archiving takes exactly the card with that identifier out of what
    [list_cmd] shows: in a registry with one card for each identifier the
    active cards after the archive button are the active cards before it
    without this one, in the same order. *)
Theorem archive_takes_off_the_list (gid : pystr) (chat : Z) (w : World) :
  colon_free gid = true ->
  NoDup (map fst (GIVEAWAYS w)) ->
  let w' := snd (on_button {| data := archive_token gid; message_chat_id := chat |} w) in
  active_cards (GIVEAWAYS w')
  = filter (fun e => negb (str_eqb (fst e) gid)) (active_cards (GIVEAWAYS w)).
Proof.
  intros Hc Hn w'. subst w'. rewrite (on_button_archive gid chat w Hc).
  cbn [snd GIVEAWAYS emit set_GIVEAWAYS]. now apply active_after_archive.
Qed.

(** X9: [list_cmd] says that there are no active cards exactly when every
    card of the registry is archived, an empty registry included. *)
Theorem list_cmd_nothing_active (w : World) :
  (forall e, In e (GIVEAWAYS w) -> archived (snd e) = true)
  <-> sent_by list_cmd w = [ReplyText (lit "Сейчас нет активных карточек.") None].
Proof.
  erewrite sent_by_emit; [|apply list_cmd_run]. split.
  - intros H. replace (active_cards (GIVEAWAYS w)) with (@nil (pystr * giveaway)); auto.
    symmetry. unfold active_cards. induction (GIVEAWAYS w) as [|e d IH]; simpl; auto.
    rewrite (H e) by now left. simpl. apply IH. intros e' He'. apply H. now right.
  - intros E e He. destruct (archived (snd e)) eqn:A; auto. exfalso.
    assert (I : In e (active_cards (GIVEAWAYS w))).
    { apply filter_In. split; auto. now rewrite A. }
    destruct (active_cards (GIVEAWAYS w)) as [|e0 l]; [contradiction|].
    apply (f_equal (fun o => match o with
                             | [ReplyText (c :: _) _] => c
                             | _ => 0%N
                             end)) in E.
    vm_compute in E. discriminate.
Qed.
End Cards.

(** ** More on links *)

Section Links.
Context {U : Unicode}.

Lemma scan_links_shape t l :
  url_scan t l ->
  forall u, In u l ->
    UrlMatch u /\ exists pre post, t = pre ++ u ++ post /\ token_end post.
Proof.
  induction 1 as [t H | gap u0 rest l Hgap Hu Hend Hscan IH]; intros u Hin.
  - contradiction.
  - destruct Hin as [->|Hin].
    + split; auto. now exists gap, rest.
    + destruct (IH u Hin) as (Hm & pre & post & -> & Hp). split; auto.
      exists (gap ++ u0 ++ pre), post. split; auto.
      now rewrite <- !app_assoc.
Qed.

(** X10: every link that [extract_links] returns stands in the text as it
    is returned: it begins with [http://] or [https://] in some case, goes
    on with one or more characters that are not white space, and is
    followed in the text by white space or by the end. *)
Theorem extracted_link_shape (t u : pystr) :
  In u (extract_links (Some t)) ->
  UrlMatch u /\ exists pre post, t = pre ++ u ++ post /\ token_end post.
Proof.
  intros H. pose proof (proj1 (extract_links_iff t _) eq_refl) as S.
  exact (scan_links_shape S u H).
Qed.

Lemma link_starts_with_h c s :
  starts_with_link (c :: s) -> ic_match (chr "h") c = true.
Proof.
  intros (u & rest & E & sc & body & -> & Hs & _).
  destruct Hs as [Hs|Hs]; inversion Hs as [|p x w' sc' Hp Hrest]; subst;
    simpl in E; inversion E; subst; exact Hp.
Qed.

Lemma findall_joined (sep : char) (links : list pystr) :
  isspace sep = true -> ic_match (chr "h") sep = false ->
  Forall UrlMatch links ->
  forall prev, findall_from URL_REGEX 0 prev (join [sep] links) = links.
Proof.
  intros Hsp Hh. induction 1 as [|u links Hu Hl IH]; intros prev.
  - reflexivity.
  - destruct links as [|v links].
    + cbn [join]. rewrite <- (app_nil_r u) at 1.
      rewrite findall_link; simpl; auto.
    + change (join [sep] (u :: v :: links)) with (u ++ [sep] ++ join [sep] (v :: links)).
      rewrite findall_link; [|assumption|exact Hsp]. f_equal.
      rewrite (@findall_gap _ [sep]).
      * apply IH.
      * intros g1 g2 E Hn. destruct g1 as [|c g1].
        -- simpl in E. subst g2. intros L. apply link_starts_with_h in L. congruence.
        -- inversion E as [[Ec Eg]]. destruct g1; destruct g2; try discriminate.
           congruence.
Qed.

(** X11: links written one after the other with a white-space character
    between them come back from [extract_links] as they were, in their
    order and with their repetitions.  (The character between them must not
    be one that the table reads as the letter h.) *)
Theorem links_round_trip (sep : char) (links : list pystr) :
  isspace sep = true -> ic_match (chr "h") sep = false ->
  Forall UrlMatch links ->
  extract_links (Some (join [sep] links)) = links.
Proof.
  intros Hsp Hh Hl. unfold extract_links, re_findall.
  replace (or_empty (Some (join [sep] links))) with (join [sep] links)
    by (now destruct (join [sep] links)).
  now apply findall_joined.
Qed.
End Links.

(** ** More on the deadline *)

Section DeadlineSource.
Context {U : Unicode} {P : Platform}.

(** Group 1 of a match is a piece of what the match consumed. *)
Lemma Matches_capture r prev s cap prev' s' cap' :
  Matches r prev s cap prev' s' cap' ->
  cap' = cap \/ exists a g b, cap' = Some g /\ s = a ++ g ++ b ++ s'.
Proof.
  induction 1 as
    [ | | r1 r2 prev s cap prev1 s1 cap1 prev2 s2 cap2 M1 IH1 M2 IH2
      | | | | | | r prev s cap prev' s' cap' M IH | ]; auto.
  - destruct (Matches_suffix M1) as (w1 & -> & _).
    destruct (Matches_suffix M2) as (w2 & -> & _).
    destruct IH2 as [->|(a & g & b & -> & E)].
    + destruct IH1 as [->|(a & g & b & -> & E)]; auto.
      right. exists a, g, (b ++ w2). split; auto.
      rewrite E, <- !app_assoc. reflexivity.
    + right. exists (w1 ++ a), g, b. split; auto. rewrite E, <- !app_assoc. reflexivity.
  - right. destruct (Matches_suffix M) as (w & -> & _).
    exists [], w, []. split; [now rewrite consumed_app|reflexivity].
Qed.

Lemma group_in_text pat text mo g :
  re_search pat text = Some mo -> group1 mo = Some g -> substring g text.
Proof.
  unfold re_search. intros Hs Hg.
  apply search_from_some in Hs as (pre & suf & s' & cap & -> & Hm & -> & _).
  simpl in Hg. subst cap. apply match_at_sound in Hm as (prev' & M).
  apply Matches_capture in M as [M|(a & g' & b & E & ->)]; [discriminate|].
  inversion E; subst g'. exists (pre ++ a), (b ++ s'). now rewrite <- !app_assoc.
Qed.

Lemma try_hints_source hints text :
  forall w d,
    fst (try_hints hints text w) = Ok (Some d) ->
    exists pat mo g,
      In pat hints /\ re_search pat text = Some mo /\ group1 mo = Some g
      /\ dateutil_parse (clock w) g = Ok (Some d).
Proof.
  induction hints as [|pat hints IH]; intros w d H; simpl in H.
  - discriminate.
  - unfold bind, re_search_hint in H.
    assert (Next : forall w0, clock w0 = clock w ->
              fst (try_hints hints text w0) = Ok (Some d) ->
              exists pat0 mo g,
                In pat0 (pat :: hints) /\ re_search pat0 text = Some mo
                /\ group1 mo = Some g /\ dateutil_parse (clock w) g = Ok (Some d)).
    { intros w0 Hc H0. apply IH in H0 as (p0 & mo & g & Hin & Hs & Hg & Hp).
      exists p0, mo, g. rewrite <- Hc. repeat split; auto. now right. }
    destruct (re_search pat text) as [mo|] eqn:Hs.
    + unfold try_except, dateparser_parse in H.
      destruct (group1 mo) as [g|] eqn:Hg.
      * change (clock (log_attempt (SearchAttempt text) w)) with (clock w) in H.
        destruct (dateutil_parse (clock w) g) as [v|e] eqn:Hp.
        -- simpl in H. inversion H; subst v. exists pat, mo, g.
           repeat split; auto. now left.
        -- eapply Next; [|exact H]. reflexivity.
      * unfold raise in H. eapply Next; [|exact H]. reflexivity.
    + eapply Next; [|exact H]. reflexivity.
Qed.

(** X12: a deadline that [extract_deadline] returns was read by [dateutil]
    from the text: either from the whole text, and then it lies after now,
    or from group 1 of a hint pattern found in the text, a piece of the
    text (and then the clock is not asked). *)
Theorem deadline_comes_from_text (text : pystr) (w : World) (d : datetime) :
  fst (extract_deadline (Some text) w) = Ok (Some d) ->
  (dateutil_parse (clock w) text = Ok (Some d) /\ (clock w < instant d)%Z)
  \/ exists pat mo g,
       In pat DEADLINE_HINTS /\ re_search pat text = Some mo /\ group1 mo = Some g
       /\ substring g text /\ dateutil_parse (clock w) g = Ok (Some d).
Proof.
  destruct text as [|c s]; [discriminate|].
  rewrite extract_deadline_steps. unfold general_parse.
  destruct (dateutil_parse (clock w) (c :: s)) as [[d0|]|e] eqn:Hp.
  1: destruct (clock w <? instant d0)%Z eqn:L.
  1: { simpl. intros E. inversion E; subst d0. left. split; auto. now apply Z.ltb_lt. }
  all: intros H; apply try_hints_source in H as (pat & mo & g & Hin & Hs & Hg & Hd);
    right; exists pat, mo, g; repeat split; auto; eapply group_in_text; eauto.
Qed.

Lemma try_hints_cost hints text :
  forall w, exists v l,
    try_hints hints text w = (Ok v, add_attempts l w)
    /\ (length (filter is_parse l) <= length hints)%nat
    /\ (length l <= 2 * length hints)%nat.
Proof.
  induction hints as [|pat hints IH]; intros w; cbn [try_hints].
  - exists None, []. rewrite add_attempts_nil. simpl. auto.
  - unfold bind, re_search_hint. rewrite log_attempt_add.
    assert (Next : forall l0, (length (filter is_parse l0) <= 1)%nat ->
              (length l0 <= 2)%nat ->
              exists v l,
                try_hints hints text (add_attempts l0 w) = (Ok v, add_attempts l w)
                /\ (length (filter is_parse l) <= length (pat :: hints))%nat
                /\ (length l <= 2 * length (pat :: hints))%nat).
    { intros l0 H1 H2. destruct (IH (add_attempts l0 w)) as (v & l & E & B1 & B2).
      exists v, (l0 ++ l). rewrite E, add_attempts_app.
      rewrite filter_app, !length_app. simpl length. repeat split; auto; lia. }
    destruct (re_search pat text) as [mo|].
    + unfold try_except, dateparser_parse.
      destruct (group1 mo) as [g|].
      * rewrite log_attempt_add, add_attempts_app.
        destruct (dateutil_parse (clock (add_attempts [SearchAttempt text] w)) g)
          as [v|e].
        -- exists v, ([SearchAttempt text] ++ [ParseAttempt g]). simpl.
           repeat split; auto; lia.
        -- apply (Next ([SearchAttempt text] ++ [ParseAttempt g])); simpl; lia.
      * unfold raise. apply (Next [SearchAttempt text]); simpl; lia.
    + apply (Next [SearchAttempt text]); simpl; lia.
Qed.

(** X13: [extract_deadline] touches nothing but the log of its attempts:
    registry, jobs, outbox, clock and identifiers stay as they were; and it
    asks [dateutil] at most four times, once for the whole text and once
    for each hint pattern, among at most seven attempts. *)
Theorem extract_deadline_cost (text : option pystr) (w : World) :
  let w' := snd (extract_deadline text w) in
  let tried := tried_by (extract_deadline text) w in
  GIVEAWAYS w' = GIVEAWAYS w /\ jobs w' = jobs w /\ outbox w' = outbox w
  /\ clock w' = clock w /\ drawn w' = drawn w
  /\ attempts w' = attempts w ++ tried
  /\ (length (filter is_parse tried) <= 4)%nat
  /\ (length tried <= 7)%nat.
Proof.
  assert (G : exists v l,
            extract_deadline text w = (Ok v, add_attempts l w)
            /\ (length (filter is_parse l) <= 4)%nat /\ (length l <= 7)%nat).
  { destruct text as [[|c s]|].
    - exists None, []. rewrite add_attempts_nil. simpl. repeat split; auto; lia.
    - rewrite extract_deadline_steps, log_attempt_add.
      destruct (general_parse (c :: s) w) as [d|].
      + exists (Some d), [ParseAttempt (c :: s)]. simpl. repeat split; auto; lia.
      + destruct (try_hints_cost DEADLINE_HINTS (c :: s)
                    (add_attempts [ParseAttempt (c :: s)] w)) as (v & l & E & B1 & B2).
        exists v, ([ParseAttempt (c :: s)] ++ l). rewrite E, add_attempts_app.
        rewrite filter_app, !length_app. simpl in *. repeat split; auto; lia.
    - exists None, []. rewrite add_attempts_nil. simpl. repeat split; auto; lia. }
  destruct G as (v & l & E & B1 & B2). intros w' tried. subst w' tried.
  unfold tried_by. rewrite E. cbn [snd add_attempts GIVEAWAYS jobs outbox clock drawn attempts].
  rewrite skipn_app, skipn_all, Nat.sub_diag. simpl skipn. auto 10.
Qed.
End DeadlineSource.

(** ** What every run of the bot keeps *)

Section RunFacts.
Context {U : Unicode} {P : Platform}.

Lemma begins_refl A (l : list A) : begins l l.
Proof. exists []. now rewrite app_nil_r. Qed.

Lemma begins_trans A (a b c : list A) : begins a b -> begins b c -> begins a c.
Proof. intros (x & ->) (y & ->). exists (x ++ y). now rewrite app_assoc. Qed.

Lemma begins_app A (a b : list A) : begins a (a ++ b).
Proof. now exists b. Qed.

Lemma dict_update_keys V k (f : V -> V) (d : list (pystr * V)) :
  map fst (dict_update k f d) = map fst d.
Proof.
  induction d as [|[k0 v0] d IH]; simpl; auto.
  destruct (str_eqb k k0); simpl; auto. now rewrite IH.
Qed.

Lemma dict_get_none_keys V k (d : list (pystr * V)) :
  dict_get k d = None <-> ~ In k (map fst d).
Proof.
  induction d as [|[k0 v0] d IH]; simpl; [tauto|].
  destruct (str_eqb k k0) eqn:E.
  - apply str_eqb_eq in E. subst. split; [discriminate|tauto].
  - rewrite IH. split; [|tauto]. intros H [->|H']; auto.
    now rewrite str_eqb_refl in E.
Qed.

Lemma dict_set_keys_cases V k (v : V) (d : list (pystr * V)) :
  map fst (dict_set k v d) = map fst d
  \/ (~ In k (map fst d) /\ map fst (dict_set k v d) = map fst d ++ [k]).
Proof.
  destruct (dict_get k d) eqn:E.
  - left. apply dict_set_keys. congruence.
  - right. split; [now apply dict_get_none_keys|].
    rewrite dict_set_fresh by assumption. now rewrite map_app.
Qed.

Lemma Forall_dict_set V (Q : pystr * V -> Prop) k v d :
  Q (k, v) -> Forall Q d -> Forall Q (dict_set k v d).
Proof.
  intros Hk. induction 1 as [|[k0 v0] d H0 Hd IH]; simpl.
  - auto.
  - destruct (str_eqb k k0) eqn:E.
    + apply str_eqb_eq in E. subst k0. auto.
    + auto.
Qed.

Lemma Forall_dict_update V (Q : pystr * V -> Prop) k f d :
  (forall k0 v0, Q (k0, v0) -> Q (k0, f v0)) -> Forall Q d -> Forall Q (dict_update k f d).
Proof.
  intros Hf. induction 1 as [|[k0 v0] d H0 Hd IH]; simpl; auto.
  destruct (str_eqb k k0); auto.
Qed.

Lemma ok_archive d gid :
  NoDup (map fst d) /\ Forall card_ok d ->
  NoDup (map fst (dict_update gid set_archived d))
  /\ Forall card_ok (dict_update gid set_archived d).
Proof.
  intros (Hn & Hf). rewrite dict_update_keys. split; auto.
  apply Forall_dict_update; auto.
Qed.

Lemma ok_create d n msg dl :
  is_giveaway (message_text msg) = true ->
  NoDup (map fst d) /\ Forall card_ok d ->
  NoDup (map fst (dict_set (gid_at n) (card_of msg dl) d))
  /\ Forall card_ok (dict_set (gid_at n) (card_of msg dl) d).
Proof.
  intros Hg (Hn & Hf). split.
  - destruct (dict_set_keys_cases (gid_at n) (card_of msg dl) d) as [->|(Hin & ->)]; auto.
    apply NoDup_app; auto.
    + constructor; [intros []|constructor].
    + intros x Hx [<-|[]]. contradiction.
  - apply Forall_dict_set; auto. unfold card_ok. cbn [fst snd card_of text links].
    split; [apply gid_length|]. split; [apply gid_hex|].
    split; [reflexivity|]. now apply is_giveaway_spec.
Qed.

Lemma step_registry w w' :
  step w w' ->
  GIVEAWAYS w' = GIVEAWAYS w
  \/ (exists gid, GIVEAWAYS w' = dict_update gid set_archived (GIVEAWAYS w))
  \/ (exists n msg dl,
        is_giveaway (message_text msg) = true
        /\ GIVEAWAYS w' = dict_set (gid_at n) (card_of msg dl) (GIVEAWAYS w)).
Proof.
  destruct 1 as [w|w|msg w|q w|j w Hj|t w Ht].
  - now left.
  - left. now rewrite list_cmd_run.
  - destruct (is_giveaway (message_text msg)) eqn:G.
    + destruct (handle_forward_candidate msg w G) as (dl & l & reply & _ & E).
      right. right. exists (drawn w), msg, dl. rewrite E. auto.
    + left. now rewrite handle_forward_rejected.
  - destruct (on_button_registry q w) as [E|E]; auto.
  - left. unfold fire, job, bind, gets.
    destruct (dict_get (job_gid j) (GIVEAWAYS w)) as [g|]; auto.
    destruct (archived g); auto.
  - now left.
Qed.

(** X14: in every state the bot reaches from a registry that is in order
    (an empty one is), no identifier stands twice in the registry; every
    identifier is made of eight hexadecimal digits; every card holds the
    links of its own text; and every card's text has a keyword or a link:
    a post without them never becomes a card. *)
Theorem registry_stays_in_order (w w' : World) :
  registry_ok w -> run w w' -> registry_ok w'.
Proof.
  intros H0. induction 1 as [w|w1 w2 w3 R IH S]; auto.
  specialize (IH H0). unfold registry_ok in *.
  destruct (step_registry S) as [->|[(gid & ->)|(n & msg & dl & G & ->)]]; auto.
  - now apply ok_archive.
  - now apply ok_create.
Qed.

(** X15: no identifier ever leaves the registry.  Along every run the
    identifiers of the registry stay where they are, in their order, and
    new ones come behind them: a key of [GIVEAWAYS] is never deleted and
    never moved.  (The card under a key may change: it is archived by its
    button, and replaced by a new card that draws the same identifier.) *)
Theorem identifiers_stay (w w' : World) :
  run w w' -> begins (map fst (GIVEAWAYS w)) (map fst (GIVEAWAYS w')).
Proof.
  induction 1 as [w|w1 w2 w3 R IH S].
  - apply begins_refl.
  - apply (begins_trans IH).
    destruct (step_registry S) as [->|[(gid & ->)|(n & msg & dl & _ & ->)]].
    + apply begins_refl.
    + rewrite dict_update_keys. apply begins_refl.
    + destruct (dict_set_keys_cases (gid_at n) (card_of msg dl) (GIVEAWAYS w2))
        as [->|(_ & ->)]; [apply begins_refl|apply begins_app].
Qed.
End RunFacts.

(** ** Every post gets one reply *)

Section Replies.
Context {U : Unicode} {P : Platform}.

Lemma dict_get_In V k (v : V) (d : list (pystr * V)) :
  dict_get k d = Some v -> In (k, v) d.
Proof.
  induction d as [|[k0 v0] d IH]; simpl; [discriminate|].
  destruct (str_eqb k k0) eqn:E.
  - intros H. inversion H; subst. apply str_eqb_eq in E. subst. now left.
  - intros H. right. now apply IH.
Qed.

(** X16: [handle_forward] never raises, whatever [dateutil] does with the
    text (an exception, no date, a date): it sends exactly one reply for
    every post, adds no job, and draws no identifier for a post it turns
    away and one for a post it keeps. *)
Theorem handle_forward_always_replies (msg : Msg.t) (w : World) :
  fst (handle_forward msg w) = Ok tt
  /\ length (sent_by (handle_forward msg) w) = 1%nat
  /\ jobs (snd (handle_forward msg w)) = jobs w
  /\ drawn (snd (handle_forward msg w))
     = (if is_giveaway (message_text msg) then S (drawn w) else drawn w).
Proof.
  destruct (is_giveaway (message_text msg)) eqn:G.
  - destruct (handle_forward_candidate msg w G) as (dl & l & reply & _ & E).
    unfold sent_by. rewrite E. cbn [fst snd outbox jobs drawn].
    rewrite skipn_app, skipn_all, Nat.sub_diag. auto.
  - rewrite (sent_by_emit _ (handle_forward_rejected msg w G)).
    rewrite handle_forward_rejected by assumption. auto.
Qed.

(** X17: a card that was just created is active: it stands among the cards
    [list_cmd] draws from, with the text of the post, also when its
    identifier was that of an archived card before. *)
Theorem new_card_is_active (msg : Msg.t) (w : World) :
  is_giveaway (message_text msg) = true ->
  let w1 := snd (handle_forward msg w) in
  exists card,
    In (next_gid w, card) (active_cards (GIVEAWAYS w1))
    /\ text card = message_text msg
    /\ dict_get (next_gid w) (GIVEAWAYS w1) = Some card.
Proof.
  intros G w1. subst w1.
  destruct (handle_forward_candidate msg w G) as (dl & l & reply & _ & E).
  rewrite E. cbn [snd GIVEAWAYS]. exists (card_of msg dl).
  pose proof (dict_get_set_same (next_gid w) (card_of msg dl) (GIVEAWAYS w)) as D.
  split; [|split; [reflexivity|exact D]].
  apply filter_In. split; [now apply dict_get_In|reflexivity].
Qed.
End Replies.

(** ** The properties at work *)

Section MoreRuns.
#[local] Existing Instance Basic.table.

Lemma schedule_reminder_range_witness :
  schedule_reminder (P := Demo.stuck) 5 Demo.deadbeef (-10) Demo.start_world
  = (Ok tt,
     add_job {| job_chat_id := 5; job_gid := Demo.deadbeef;
                run_date := {| wall := Demo.evening - 10 * US_PER_MINUTE;
                               tzinfo := None |} |} Demo.start_world)
  /\ schedule_reminder (P := Demo.stuck) 5 Demo.deadbeef (-1064169780) Demo.start_world
     = (Raise ValueError, Demo.start_world)
  /\ schedule_reminder (P := Demo.stuck) 5 Demo.deadbeef (10 ^ 12) Demo.start_world
     = (Raise OverflowError, Demo.start_world).
Proof.
  assert (H : (0 <= clock Demo.start_world + local_utcoffset (Platform := Demo.stuck)
               < MAXWALL)%Z)
    by (vm_compute; split; [discriminate|reflexivity]).
  split; [|split].
  - apply (proj1 (schedule_reminder_range (P := Demo.stuck) 5 Demo.deadbeef (-10)
                    Demo.start_world H)).
    vm_compute. split; [discriminate|reflexivity].
  - apply (proj1 (schedule_reminder_range (P := Demo.stuck) 5 Demo.deadbeef (-1064169780)
                    Demo.start_world H)).
    vm_compute. split; [discriminate|reflexivity].
  - apply (proj2 (schedule_reminder_range (P := Demo.stuck) 5 Demo.deadbeef (10 ^ 12)
                    Demo.start_world H)).
    vm_compute. intros (_ & L). discriminate.
Defined.

Lemma buttons_are_understood_witness :
  exists t10 t60 ta,
    button_tokens (build_buttons [] (gid_at (P := Demo.stuck) 0) None) = [t10; t60; ta]
    /\ fst (on_button (P := Demo.stuck) (Demo.press t10) Demo.start_world) = Ok tt
    /\ fst (on_button (P := Demo.stuck) (Demo.press t60) Demo.start_world) = Ok tt
    /\ fst (on_button (P := Demo.stuck) (Demo.press ta) Demo.start_world) = Ok tt.
Proof.
  destruct (buttons_are_understood (P := Demo.stuck) 0 [] None 5 Demo.start_world)
    as (t10 & t60 & ta & E & E10 & E60 & Ea).
  - reflexivity.
  - reflexivity.
  - vm_compute. discriminate.
  - vm_compute. reflexivity.
  - exists t10, t60, ta. unfold Demo.press. rewrite E10, E60, Ea. auto.
Defined.

Lemma handle_forward_turns_away_witness :
  handle_forward (P := Demo.stuck)
    {| Msg.text := None; Msg.caption := Some []; Msg.forward_from_chat := None |}
    Demo.start_world
  = (Ok tt,
     emit (ReplyText
             (lit "Не похоже на розыгрыш. Если всё же он — пришли сообщение с ссылкой/условиями.")
             None) Demo.start_world).
Proof.
  apply (handle_forward_turns_away (P := Demo.stuck)).
  right. split; reflexivity.
Defined.

Lemma reminder_repeats_keyboard_witness :
  is_giveaway (message_text Demo.second_post) = true
  /\ exists title keyboard,
       sent_by (handle_forward (P := Demo.stuck) Demo.second_post) Demo.start_world
       = [ReplyText title (Some keyboard)]
       /\ sent_by (job 5 (next_gid (P := Demo.stuck) Demo.start_world))
            (snd (handle_forward (P := Demo.stuck) Demo.second_post Demo.start_world))
          = [SendMessage 5 (lit "⏰ Напоминание по розыгрышу "
                              ++ next_gid (P := Demo.stuck) Demo.start_world) keyboard].
Proof.
  assert (H : is_giveaway (message_text Demo.second_post) = true)
    by (vm_compute; reflexivity).
  split; [exact H|].
  exact (reminder_repeats_keyboard (P := Demo.stuck) Demo.second_post 5 Demo.start_world H).
Defined.

Lemma archive_takes_off_the_list_witness :
  let w1 := snd (handle_forward (P := Demo.stuck) Demo.first_post Demo.start_world) in
  let w2 := snd (on_button (P := Demo.stuck)
                   {| data := archive_token Demo.deadbeef; message_chat_id := 5 |} w1) in
  map fst (active_cards (GIVEAWAYS w1)) = [Demo.deadbeef]
  /\ active_cards (GIVEAWAYS w2)
     = filter (fun e => negb (str_eqb (fst e) Demo.deadbeef)) (active_cards (GIVEAWAYS w1)).
Proof.
  cbv zeta. split; [vm_compute; reflexivity|].
  apply (archive_takes_off_the_list (P := Demo.stuck) Demo.deadbeef 5).
  - reflexivity.
  - vm_compute. constructor; [intros []|constructor].
Defined.

Lemma extracted_link_shape_witness :
  UrlMatch (lit "https://t.me/x")
  /\ exists pre post,
       lit "giveaway two https://t.me/x" = pre ++ lit "https://t.me/x" ++ post
       /\ token_end post.
Proof.
  apply (extracted_link_shape (lit "giveaway two https://t.me/x") (lit "https://t.me/x")).
  vm_compute. left. reflexivity.
Defined.

Lemma links_round_trip_witness :
  extract_links (Some (join [32%N] [lit "https://t.me/x"; lit "HTTP://a.b"; lit "https://t.me/x"]))
  = [lit "https://t.me/x"; lit "HTTP://a.b"; lit "https://t.me/x"].
Proof.
  assert (M : forall u, In u (extract_links (Some u)) -> UrlMatch u).
  { intros u H. exact (proj1 (scan_links_shape (proj1 (extract_links_iff u _) eq_refl) u H)). }
  apply links_round_trip.
  - reflexivity.
  - reflexivity.
  - repeat (constructor; [apply M; vm_compute; left; reflexivity|]). constructor.
Defined.

Lemma deadline_comes_from_text_witness :
  let text := lit "до 18:00" in
  let d := {| wall := Demo.evening - 60 * US_PER_MINUTE; tzinfo := None |} in
  (dateutil_parse (Platform := Demo.stuck) (clock Demo.start_world) text = Ok (Some d)
   /\ (clock Demo.start_world < instant (P := Demo.stuck) d)%Z)
  \/ exists pat mo g,
       In pat DEADLINE_HINTS /\ re_search pat text = Some mo /\ group1 mo = Some g
       /\ substring g text
       /\ dateutil_parse (Platform := Demo.stuck) (clock Demo.start_world) g = Ok (Some d).
Proof.
  apply (deadline_comes_from_text (P := Demo.stuck)).
  vm_compute. reflexivity.
Defined.

Lemma registry_stays_in_order_witness :
  registry_ok
    (snd (on_button (P := Demo.stuck)
            {| data := archive_token Demo.deadbeef; message_chat_id := 5 |}
            (snd (handle_forward (P := Demo.stuck) Demo.second_post Demo.start_world)))).
Proof.
  apply (registry_stays_in_order (P := Demo.stuck) (w := Demo.start_world)).
  - split; constructor.
  - eapply run_more; [eapply run_more; [apply run_done|]|].
    + apply (step_forward (P := Demo.stuck) Demo.second_post).
    + apply (step_button (P := Demo.stuck)).
Defined.

Lemma identifiers_stay_witness :
  let w1 := snd (handle_forward (P := Demo.colliding) Demo.first_post Demo.start_world) in
  let w2 := snd (handle_forward (P := Demo.colliding) Demo.second_post w1) in
  let w3 := snd (handle_forward (P := Demo.colliding) Demo.third_post w2) in
  begins (map fst (GIVEAWAYS w1)) (map fst (GIVEAWAYS w3)).
Proof.
  cbv zeta. apply (identifiers_stay (P := Demo.colliding)).
  eapply run_more; [eapply run_more; [apply run_done|]|].
  - apply (step_forward (P := Demo.colliding) Demo.second_post).
  - apply (step_forward (P := Demo.colliding) Demo.third_post).
Defined.

Lemma new_card_is_active_witness :
  exists card,
    In (Demo.deadbeef, card)
      (active_cards
         (GIVEAWAYS (snd (handle_forward (P := Demo.stuck) Demo.first_post Demo.start_world))))
    /\ text card = lit "giveaway one".
Proof.
  destruct (new_card_is_active (P := Demo.stuck) Demo.first_post Demo.start_world)
    as (card & Hin & Ht & _).
  - vm_compute. reflexivity.
  - exists card. split; [exact Hin|exact Ht].
Defined.
End MoreRuns.
